(** * Arc-standard dependency parsing ([q1_parse.py])

    A shallow embedding of [PartialParse], [minibatch_parse] and the
    [DependencyGraph] helpers of [q1_parse.py], together with the oracle
    loop of [Transducer.graphs2feats_and_tds] ([data.py]), the id tables
    of [Transducer], its transition vectors, [graph2arc] and
    [score_arcs].

    Python objects that the methods mutate are threaded explicitly: a
    method is a function from the receiver's state to either an exception
    or a return value paired with the receiver's new state.

    The three contact lines that stand before the module docstring in
    the repository's copy of each file are not part of the program and
    are left out. Several bodies of [q1_parse.py] end at the comment
    that marks where code is to be entered; they are embedded as they
    stand. *)

From Stdlib Require Import ZArith QArith List String Bool Lia Permutation Sorted.
Import ListNotations.

Local Open Scope string_scope.
Local Open Scope Z_scope.

(** ** The fragment of Python the module relies on *)

Module Py.

(** The exceptions the module can raise. *)
Inductive exn : Type :=
| ValueError (msg : string)
| NameError (name : string)
| TypeError.

Inductive result (A : Type) : Type :=
| Ok (a : A)
| Raise (e : exn).

Arguments Ok {A} a.
Arguments Raise {A} e.

Definition bind {A B : Type} (r : result A) (k : A -> result B) : result B :=
  match r with
  | Ok a => k a
  | Raise e => Raise e
  end.

(** The values a function of this module hands back when it is not a
    list or a tuple. *)
Inductive value : Type :=
| VNone
| VBool (b : bool)
| VInt (n : Z).

(** Truth value testing, as [if v:] and [not v] do it. *)
Definition truth (v : value) : bool :=
  match v with
  | VNone => false
  | VBool b => b
  | VInt n => negb (n =? 0)
  end.

End Py.

Import Py.

Notation "x <- r ;; k" := (bind r (fun x => k))
  (at level 61, r at next level, right associativity).
Notation "' p <- r ;; k" := (bind r (fun p => k))
  (at level 61, p pattern, r at next level, right associativity).

(** ** [PartialParse] *)

(** A sentence element: [(word, tag)]; the word of the root is [None]. *)
Definition token : Type := option string * string.

(** [(idx_head, idx_dep, deprel)]; [deprel] is whatever the caller passed,
    a string or [None]. *)
Definition arc : Type := Z * Z * option string.

Record PartialParse : Type := mkPartialParse {
  sentence : list token;
  stack : list Z;
  next : Z;
  arcs : list arc
}.

Definition left_arc_id : Z := 0.
Definition right_arc_id : Z := 1.
Definition shift_id : Z := 2.
Definition root_tag : string := "TOP".

(** A method of [PartialParse]: it may raise, and otherwise returns a
    value and leaves the object in a new state. *)
Definition method (A : Type) : Type := PartialParse -> result (A * PartialParse).

Definition ret {A : Type} (a : A) : method A := fun self => Ok (a, self).

Definition raise {A : Type} (e : exn) : method A := fun _ => Raise e.

Definition mbind {A B : Type} (m : method A) (k : A -> method B) : method B :=
  fun self => '(a, self') <- m self ;; k a self'.

Notation "x <~ m ;; k" := (mbind m (fun x => k))
  (at level 61, m at next level, right associativity).

(** [__init__]: the root pair is put in front of the sentence. *)
Definition __init__ (sentence : list token) : PartialParse :=
  {| sentence := (None, root_tag) :: sentence;
     stack := [0];
     next := 1;
     arcs := [] |}.

(** [complete]: the property's body is its docstring followed by the
    comment that marks where code is to be entered. A function that
    reaches its end without [return] yields [None]. *)
Definition complete : method value := ret VNone.

(** [parse_step]: the body is again the docstring and the marker comment
    only: the call returns [None], raises nothing and assigns nothing. *)
Definition parse_step (transition_id : Z) (deprel : option string) : method value :=
  ret VNone.

(** [get_nleftmost]: after the marker comment the body is
    [return dep_list]. The name is bound neither as a parameter
    ([self], [sentence_idx], [n]) nor by an assignment, nor at module
    level, so reading it raises [NameError]. *)
Definition get_nleftmost (sentence_idx : Z) (n : option Z) : method (list Z) :=
  raise (NameError "dep_list").

(** [get_nrightmost]: the same body. *)
Definition get_nrightmost (sentence_idx : Z) (n : option Z) : method (list Z) :=
  raise (NameError "dep_list").

(** [parse]: [parse_step] for every pair, then [self.arcs]. *)
Fixpoint parse (td_pairs : list (Z * option string)) : method (list arc) :=
  match td_pairs with
  | [] => fun self => Ok (arcs self, self)
  | (transition_id, deprel) :: rest =>
      _ <~ parse_step transition_id deprel ;; parse rest
  end.

(** ** [DependencyGraph] and the helper functions *)

(** A node of [graph.nodes], with the fields this module reads. As in the
    graphs built from a CoNLL block, [address] is an integer and [ctag] a
    string; the root has no word. [deps] maps a relation to the addresses
    of the dependants under it. The dictionary is keyed by address; it is
    kept as the list of its values in iteration order. *)
Record node : Type := mkNode {
  address : Z;
  word : option string;
  ctag : string;
  head : option Z;
  rel : option string;
  deps : list (string * list Z)
}.

Record DependencyGraph : Type := mkGraph {
  nodes : list node
}.

Definition node_at (sentence_idx : Z) (graph : DependencyGraph) : option node :=
  find (fun nd => address nd =? sentence_idx) (nodes graph).

(** [graph.nodes] is a [defaultdict]: an address that is not a key reads
    as a node whose fields are [None] and whose [deps] is empty. *)
Definition get_dep_rel (sentence_idx : Z) (graph : DependencyGraph) : option string :=
  match node_at sentence_idx graph with
  | Some nd => rel nd
  | None => None
  end.

Definition get_head (sentence_idx : Z) (graph : DependencyGraph) : option Z :=
  match node_at sentence_idx graph with
  | Some nd => head nd
  | None => None
  end.

Definition get_deps (sentence_idx : Z) (graph : DependencyGraph) : list Z :=
  match node_at sentence_idx graph with
  | Some nd => List.concat (map snd (deps nd))
  | None => []
  end.

(** [get_oracle]: the guard on [self.complete], the initial assignment
    and the final [return] are what the body holds; nothing stands
    between the marker comment and the [return]. *)
Definition get_oracle (graph : DependencyGraph) : method (Z * option string) :=
  c <~ complete ;;
  if truth c then raise (ValueError "PartialParse already completed")
  else
    let '(transition, dep_rel_label) := (-1, @None string) in
    ret (transition, dep_rel_label).

(** [minibatch_parse]: the body is [return arcs] after the marker
    comment; [arcs] is bound nowhere. [model.predict] is the function
    [model]. *)
Definition minibatch_parse (sentences : list (list token))
    (model : list PartialParse -> list (Z * option string))
    (batch_size : Z) : result (list (list arc)) :=
  Raise (NameError "arcs").

(** ** [get_sentence] *)

(** The triples [(address, word, ctag)] that [get_sentence] sorts. *)
Definition entry : Type := Z * option string * string.

Definition opt_string_eqb (a b : option string) : bool :=
  match a, b with
  | Some x, Some y => String.eqb x y
  | None, None => true
  | _, _ => false
  end.

(** [a < b] on two such tuples: the first position where they differ
    decides; [None] is ordered against nothing, strings are ordered
    by code point. *)
Definition entry_lt (a b : entry) : result bool :=
  let '(a1, w1, c1) := a in
  let '(a2, w2, c2) := b in
  if negb (a1 =? a2) then Ok (a1 <? a2)
  else if negb (opt_string_eqb w1 w2) then
    match w1, w2 with
    | Some x, Some y => Ok (String.ltb x y)
    | _, _ => Raise TypeError
    end
  else Ok (String.ltb c1 c2).

(** [list.sort()] is a stable comparison sort that asks only for [<];
    it is taken here as insertion from the right. An exception of a
    comparison ends the sort. *)
Fixpoint insert_sorted (x : entry) (l : list entry) : result (list entry) :=
  match l with
  | [] => Ok [x]
  | y :: l' =>
      b <- entry_lt y x ;;
      if (b : bool) then r <- insert_sorted x l' ;; Ok (y :: r)
      else Ok (x :: y :: l')
  end.

Fixpoint list_sort (l : list entry) : result (list entry) :=
  match l with
  | [] => Ok []
  | x :: l' => r <- list_sort l' ;; insert_sorted x r
  end.

Definition has_word (nd : node) : bool :=
  match word nd with
  | Some _ => true
  | None => false
  end.

Definition entry_of (nd : node) : entry := (address nd, word nd, ctag nd).

(** [t[1:]] of a triple. *)
Definition tail_of (t : entry) : token := (snd (fst t), snd t).

Definition token_of (nd : node) : token := (word nd, ctag nd).

Definition get_sentence (graph : DependencyGraph) (include_root : bool)
    : result (list token) :=
  let sentence_w_addresses :=
    map entry_of
      (filter (fun nd => include_root || has_word nd) (nodes graph)) in
  sorted <- list_sort sentence_w_addresses ;;
  Ok (map tail_of sorted).

(** ** Driving a parse with the oracle *)

(** The loop that the docstring of [get_oracle] describes and that
    [Transducer.graphs2feats_and_tds] runs:
    while [pp.complete] is not true, [get_oracle] is asked for a pair
    and the pair is handed to [parse_step].
    The result is [true] when the loop was left within [fuel] rounds. *)
Fixpoint oracle_parse (fuel : nat) (graph : DependencyGraph) : method bool :=
  match fuel with
  | O => ret false
  | S fuel' =>
      c <~ complete ;;
      if negb (truth c) then
        td <~ get_oracle graph ;;
        _ <~ parse_step (fst td) (snd td) ;;
        oracle_parse fuel' graph
      else ret true
  end.

(** The state condition the class docstring gives for a finished parse:
    one element on the stack and an empty buffer
    ([next == len(sentence)]). *)
Definition completion_condition (pp : PartialParse) : bool :=
  (Z.of_nat (List.length (stack pp)) =? 1)
  && (next pp =? Z.of_nat (List.length (sentence pp))).

(** How often a transition id occurs in a sequence of pairs. *)
Definition count_id (id : Z) (td_pairs : list (Z * option string)) : nat :=
  List.length (filter (fun td => fst td =? id) td_pairs).

(** ** Inputs used below *)

Definition book_sentence : list token :=
  [(Some "book", "VB"); (Some "a", "DT"); (Some "flight", "NN")].

(** head(1)=0/root, head(2)=3/det, head(3)=1/obj. *)
Definition book_graph : DependencyGraph :=
  {| nodes :=
       [ mkNode 0 None "TOP" None None [("root", [1])];
         mkNode 1 (Some "book") "VB" (Some 0) (Some "root") [("obj", [3])];
         mkNode 2 (Some "a") "DT" (Some 3) (Some "det") [];
         mkNode 3 (Some "flight") "NN" (Some 1) (Some "obj") [("det", [2])] ] |}.

(** A graph whose word addresses leave out 2. *)
Definition gap_graph : DependencyGraph :=
  {| nodes :=
       [ mkNode 0 None "TOP" None None [("root", [1])];
         mkNode 1 (Some "a") "DT" (Some 0) (Some "root") [("dep", [3])];
         mkNode 3 (Some "b") "NN" (Some 1) (Some "dep") [] ] |}.

(** The property that a word's index in the parse state is its address
    in the graph the sentence was taken from. *)
Definition word_index_is_address (g : DependencyGraph) : Prop :=
  exists s,
    get_sentence g false = Ok s /\
    forall nd, In nd (nodes g) -> has_word nd = true ->
      nth_error (sentence (__init__ s)) (Z.to_nat (address nd))
      = Some (token_of nd).

Definition addr_lt (a b : node) : Prop := address a < address b.

Definition key (e : entry) : Z := fst (fst e).

Definition key_lt (a b : entry) : Prop := key a < key b.

(** ** [get_dep_left], [get_dep_right] *)



(** ** Dictionaries and tuples as [data.py] uses them *)

(** A [dict] with keys that are strings or [None]: the items in
    insertion order, every key once. *)
Definition dict (V : Type) : Type := list (option string * V).

(** [d[k] = v]: an existing key keeps its place and takes the value. *)
Fixpoint dict_set {V : Type} (d : dict V) (k : option string) (v : V) : dict V :=
  match d with
  | [] => [(k, v)]
  | (k', v') :: d' =>
      if opt_string_eqb k' k then (k', v) :: d'
      else (k', v') :: dict_set d' k v
  end.

(** [dict(pairs)]. *)
Definition dict_from {V : Type} (pairs : list (option string * V)) : dict V :=
  fold_left (fun d kv => dict_set d (fst kv) (snd kv)) pairs [].

(** [d.get(k, default)]. *)
Fixpoint dict_get {V : Type} (d : dict V) (k : option string) (default : V) : V :=
  match d with
  | [] => default
  | (k', v') :: d' => if opt_string_eqb k' k then v' else dict_get d' k default
  end.

(** [enumerate(l)], counting from [start]. *)
Fixpoint enumerate_from {A : Type} (start : Z) (l : list A) : list (Z * A) :=
  match l with
  | [] => []
  | x :: l' => (start, x) :: enumerate_from (start + 1) l'
  end.

(** [t[i]] for a tuple and an index that is not negative (Python counts
    a negative index from the end; no index computed in this code is
    negative); [None] stands for [IndexError]. *)
Definition tuple_at {A : Type} (t : list A) (i : Z) : option A :=
  if i <? 0 then None else nth_error t (Z.to_nat i).

Definition len {A : Type} (l : list A) : Z := Z.of_nat (List.length l).

(** ** [Transducer] *)

Module Transducer.

Definition root_word : option string := None.
Definition unk_word : option string := Some "_".
Definition root_tag : option string := Some "TOP".
Definition unk_tag : option string := Some "_".
Definition root_deprel : option string := Some "ROOT".
Definition unk_deprel : option string := Some "_".

Record t : Type := mk {
  id2word : list (option string);
  id2tag : list (option string);
  id2deprel : list (option string);
  word2id : dict Z;
  tag2id : dict Z;
  deprel2id : dict Z;
  unk_word_id : Z;
  unk_tag_id : Z;
  unk_deprel_id : Z;
  null_word_id : Z;
  null_tag_id : Z;
  null_deprel_id : Z
}.

(** [dict((val, idx) for idx, val in enumerate(id2x))]. *)
Definition index_of (id2x : list (option string)) : dict Z :=
  dict_from (map (fun iv => (snd iv, fst iv)) (enumerate_from 0 id2x)).

Definition __init__ (word_list tag_list deprel_list : list string) : t :=
  let id2word := ((root_word :: map Some word_list) ++ [unk_word])%list in
  let id2tag := ((root_tag :: map Some tag_list) ++ [unk_tag])%list in
  let id2deprel := ((root_deprel :: map Some deprel_list) ++ [unk_deprel])%list in
  {| id2word := id2word;
     id2tag := id2tag;
     id2deprel := id2deprel;
     word2id := index_of id2word;
     tag2id := index_of id2tag;
     deprel2id := index_of id2deprel;
     unk_word_id := len id2word - 1;
     unk_tag_id := len id2tag - 1;
     unk_deprel_id := len id2deprel - 1;
     null_word_id := len id2word;
     null_tag_id := len id2tag;
     null_deprel_id := len id2deprel |}.

(** *** Transition vectors *)

(** The entries of the vectors below are numbers that [np.argmax],
    [np.sum] and truth testing only compare and add; the vectors that
    this code builds itself hold 0 and 1 only. They are kept as lists
    of integers. *)
Definition vec : Type := list Z.

(** [np.zeros(n)]. *)
Definition zeros (n : Z) : vec := repeat 0 (Z.to_nat n).

(** [v[i] = x] for an index that is not negative; [None] stands for
    [IndexError]. *)
Definition vec_set (v : vec) (i : Z) (x : Z) : option vec :=
  if (0 <=? i) && (i <? len v)
  then Some (firstn (Z.to_nat i) v ++ x :: skipn (S (Z.to_nat i)) v)%list
  else None.

(** [np.argmax(v)]: the first index of the largest entry; [None] stands
    for the [ValueError] on an empty vector. *)
Fixpoint argmax_from (best_idx best idx : Z) (v : vec) : Z :=
  match v with
  | [] => best_idx
  | x :: v' =>
      if best <? x then argmax_from idx x (idx + 1) v'
      else argmax_from best_idx best (idx + 1) v'
  end.

Definition argmax (v : vec) : option Z :=
  match v with
  | [] => None
  | x :: v' => Some (argmax_from 0 x 1 v')
  end.

(** [np.sum(v)]. *)
Definition vec_sum (v : vec) : Z := fold_right Z.add 0 v.

(** [v[a:b]] for bounds that are not negative. *)
Definition slice {A : Type} (l : list A) (a b : Z) : list A :=
  skipn (Z.to_nat a) (firstn (Z.to_nat b) l).

(** The vector that [graphs2feats_and_tds] builds for the pair the
    oracle returned: index 0 for a shift, [1 + deprel_id] for a
    left-arc, [1 + len(id2deprel) + deprel_id] for every other
    transition id. *)
Definition td_vec_of (self : t) (transition_id : Z) (deprel : option string)
    : option vec :=
  let td_vec := zeros (2 * len (id2deprel self) + 1) in
  if transition_id =? shift_id then vec_set td_vec 0 1
  else
    let deprel_id := dict_get (deprel2id self) deprel (unk_deprel_id self) in
    if transition_id =? left_arc_id then vec_set td_vec (1 + deprel_id) 1
    else vec_set td_vec (1 + len (id2deprel self) + deprel_id) 1.

(** [td_vec2trans_deprel]. The three ids default to those of
    [PartialParse] when they are [None]. *)
Definition td_vec2trans_deprel (self : t) (td_vec : vec)
    (shift left_arc right_arc : option Z) (has_deprel : bool)
    : option (Z * option string) :=
  let shift_id := match shift with Some x => x | None => shift_id end in
  let left_arc_id := match left_arc with Some x => x | None => left_arc_id end in
  let right_arc_id := match right_arc with Some x => x | None => right_arc_id end in
  match argmax td_vec with
  | None => None
  | Some max_idx =>
      if negb has_deprel then
        match tuple_at [shift_id; left_arc_id; right_arc_id] max_idx with
        | Some id => Some (id, None)
        | None => None
        end
      else if max_idx =? 0 then Some (shift_id, None)
      else if max_idx <=? len (id2deprel self) then
        match tuple_at (id2deprel self) (max_idx - 1) with
        | Some deprel => Some (left_arc_id, deprel)
        | None => None
        end
      else
        match tuple_at (id2deprel self) (max_idx - len (id2deprel self) - 1) with
        | Some deprel => Some (right_arc_id, deprel)
        | None => None
        end
  end.

(** The vector that [remove_deprels] yields for one [td_vec]; [None]
    stands for the [IndexError] of [td_vec[0]] on an empty vector. *)
Definition remove_deprels_td (self : t) (td_vec : vec) : option vec :=
  match td_vec with
  | [] => None
  | x :: _ =>
      if negb (x =? 0) then Some [1; 0; 0]
      else if negb (vec_sum (slice td_vec 1 (len (deprel2id self))) =? 0)
      then Some [0; 1; 0]
      else Some [0; 0; 1]
  end.

End Transducer.

(** ** [score_arcs] *)

(** The dictionary [ex] of one sentence, from a dependant to the pair
    of its head and relation. Setting a key that is present replaces
    its value. *)
Definition ex_dict : Type := list (Z * (Z * option string)).

Fixpoint ex_set (ex : ex_dict) (k : Z) (v : Z * option string) : ex_dict :=
  match ex with
  | [] => [(k, v)]
  | (k', v') :: ex' =>
      if k' =? k then (k', v) :: ex' else (k', v') :: ex_set ex' k v
  end.

Fixpoint ex_get (ex : ex_dict) (k : Z) : option (Z * option string) :=
  match ex with
  | [] => None
  | (k', v') :: ex' => if k' =? k then Some v' else ex_get ex' k
  end.

(** [ex[ex_d] = (ex_h, ex_dep)]. *)
Definition ex_add (ex : ex_dict) (a : arc) : ex_dict :=
  let '(ex_h, ex_d, ex_dep) := a in ex_set ex ex_d (ex_h, ex_dep).

Definition ex_of (expected : list arc) : ex_dict :=
  fold_left ex_add expected [].

(** The dependant of an arc, its second component. *)
Definition dependant (a : arc) : Z := snd (fst a).

(** [ex.get(ac_d) == (ac_h, ac_dep)]. *)
Definition labelled_hit (ex : ex_dict) (a : arc) : bool :=
  let '(ac_h, ac_d, ac_dep) := a in
  match ex_get ex ac_d with
  | Some (h, dep) => (h =? ac_h) && opt_string_eqb dep ac_dep
  | None => false
  end.

(** [ex.get(ac_d) is not None and ex.get(ac_d)[0] == ac_h]. *)
Definition unlabelled_hit (ex : ex_dict) (a : arc) : bool :=
  let '(ac_h, ac_d, ac_dep) := a in
  match ex_get ex ac_d with
  | Some (h, _) => h =? ac_h
  | None => false
  end.

(** The three counters of [score_arcs]. [accum] and [accum_l] are floats
    in the source; they only ever hold whole numbers. *)
Record counters : Type := mkCounters {
  accum_l : Z;
  accum : Z;
  tokens : Z
}.

Definition b2z (b : bool) : Z := if b then 1 else 0.

(** One round of the outer loop. *)
Definition score_sentence (las : bool) (c : counters)
    (pair : list arc * list arc) : counters :=
  let '(actual, expected) := pair in
  let sent_len := len expected in
  let c := mkCounters (accum_l c) (accum c) (tokens c + sent_len) in
  let ex := ex_of expected in
  fold_left
    (fun c a =>
       mkCounters
         (if las then accum_l c + b2z (labelled_hit ex a) else accum_l c)
         (accum c + b2z (unlabelled_hit ex a))
         (tokens c))
    actual c.

Definition score_counters (actuals expecteds : list (list arc)) (las : bool)
    : counters :=
  fold_left (score_sentence las) (combine actuals expecteds)
    (mkCounters 0 0 0).

(** The quotients of the last line, taken in the rationals; the
    denominator [max(tokens, 1)] is positive. *)
Definition score_arcs (actuals expecteds : list (list arc)) (las : bool)
    : option Q * Q :=
  let c := score_counters actuals expecteds las in
  let d := Z.to_pos (Z.max (tokens c) 1) in
  ((if las then Some (Qmake (accum_l c) d) else None), Qmake (accum c) d).

(** ** [Transducer.graph2arc] *)

(** [range(a, b)]. *)
Definition range (a b : Z) : list Z :=
  map (fun k => a + Z.of_nat k) (seq 0 (Z.to_nat (b - a))).

(** What [graph2arc] yields: a triple with the relation id, or a pair. *)
Inductive graph_arc : Type :=
  | Labelled (head_idx : option Z) (dep_idx : Z) (deprel_id : Z)
  | Unlabelled (head_idx : option Z) (dep_idx : Z).

(** [graph.nodes[node_address]] reads through the [defaultdict] as in
    [get_head] and [get_dep_rel]; [len(graph.nodes)] is taken once,
    before the first read. *)
Definition graph2arc (self : Transducer.t) (graph : DependencyGraph)
    (include_deprel : bool) : list graph_arc :=
  map
    (fun node_address =>
       if include_deprel
       then Labelled (get_head node_address graph) node_address
              (dict_get (Transducer.deprel2id self)
                 (get_dep_rel node_address graph)
                 (Transducer.unk_deprel_id self))
       else Unlabelled (get_head node_address graph) node_address)
    (range 1 (len (nodes graph))).

(** * The placeholder bodies *)

Lemma complete_eq (pp : PartialParse) : complete pp = Ok (VNone, pp).
Proof. reflexivity. Qed.

Lemma parse_step_eq (transition_id : Z) (deprel : option string) (pp : PartialParse) :
  parse_step transition_id deprel pp = Ok (VNone, pp).
Proof. reflexivity. Qed.

Lemma get_oracle_eq (graph : DependencyGraph) (pp : PartialParse) :
  get_oracle graph pp = Ok ((-1, None), pp).
Proof. reflexivity. Qed.

Lemma parse_eq (td_pairs : list (Z * option string)) (pp : PartialParse) :
  parse td_pairs pp = Ok (arcs pp, pp).
Proof.
  induction td_pairs as [| [t d] rest IH]; simpl.
  - reflexivity.
  - unfold mbind. rewrite parse_step_eq. simpl. exact IH.
Qed.

Lemma oracle_parse_eq (fuel : nat) (graph : DependencyGraph) (pp : PartialParse) :
  oracle_parse fuel graph pp = Ok (false, pp).
Proof.
  induction fuel as [| fuel IH]; simpl.
  - reflexivity.
  - unfold mbind. rewrite complete_eq. simpl. exact IH.
Qed.

Lemma get_nleftmost_eq (sentence_idx : Z) (n : option Z) (pp : PartialParse) :
  get_nleftmost sentence_idx n pp = Raise (NameError "dep_list").
Proof. reflexivity. Qed.

Lemma get_nrightmost_eq (sentence_idx : Z) (n : option Z) (pp : PartialParse) :
  get_nrightmost sentence_idx n pp = Raise (NameError "dep_list").
Proof. reflexivity. Qed.

(** * Sorting by address *)

Section SortedUnique.

Variable A : Type.
Variable rank : A -> Z.

(** A list in strictly ascending rank is the only such arrangement
    of its elements. *)
Lemma sorted_perm_unique (l1 l2 : list A) :
  StronglySorted (fun a b => rank a < rank b) l1 -> StronglySorted (fun a b => rank a < rank b) l2 ->
  Permutation l1 l2 -> l1 = l2.
Proof.
  revert l2. induction l1 as [| a l1 IH]; intros l2 S1 S2 P.
  - apply Permutation_nil in P. now subst.
  - destruct l2 as [| b l2].
    + apply Permutation_sym, Permutation_nil in P. discriminate.
    + inversion S1 as [| ? ? S1' F1]; subst.
      inversion S2 as [| ? ? S2' F2]; subst.
      assert (E : a = b).
      { assert (Ia : In a (b :: l2))
          by (eapply Permutation_in; [exact P | now left]).
        assert (Ib : In b (a :: l1))
          by (eapply Permutation_in;
              [apply Permutation_sym; exact P | now left]).
        destruct Ia as [-> | Ia]; [reflexivity |].
        destruct Ib as [-> | Ib]; [reflexivity |].
        rewrite Forall_forall in F1, F2.
        specialize (F1 _ Ib). specialize (F2 _ Ia).
        simpl in F1, F2. lia. }
      subst b. f_equal. apply IH; auto.
      eapply Permutation_cons_inv; exact P.
Qed.

Lemma sorted_map_rank (l : list A) :
  StronglySorted Z.lt (map rank l) -> StronglySorted (fun a b => rank a < rank b) l.
Proof.
  induction l as [| a l IH]; simpl; intro S.
  - constructor.
  - inversion S as [| ? ? S' F]; subst. constructor; auto.
    rewrite Forall_forall in *. intros x Hx.
    apply F, in_map, Hx.
Qed.

End SortedUnique.

Lemma entry_lt_key (a b : entry) :
  key a <> key b -> entry_lt a b = Ok (key a <? key b).
Proof.
  destruct a as [[a1 w1] c1], b as [[a2 w2] c2]; unfold key; simpl.
  intro H. destruct (Z.eqb_spec a1 a2); [contradiction | reflexivity].
Qed.

Lemma insert_sorted_ok (x : entry) (l : list entry) :
  (forall y, In y l -> key y <> key x) ->
  StronglySorted key_lt l ->
  exists r,
    insert_sorted x l = Ok r /\ Permutation (x :: l) r /\ StronglySorted key_lt r.
Proof.
  induction l as [| y l IH]; intros D S; simpl.
  - exists [x]. repeat split; auto. repeat constructor.
  - inversion S as [| ? ? S' F]; subst.
    rewrite entry_lt_key by (apply D; now left). simpl.
    destruct (Z.ltb_spec (key y) (key x)) as [L | L].
    + destruct IH as (r & E & P & Sr); auto.
      { intros z Hz. apply D. now right. }
      rewrite E. simpl. exists (y :: r). repeat split.
      * apply perm_trans with (y :: x :: l); [apply perm_swap | now apply perm_skip].
      * constructor; auto. rewrite Forall_forall in *. intros z Hz.
        apply Permutation_sym in P.
        destruct (Permutation_in _ P Hz) as [<- | Hz']; [exact L |].
        now apply F.
    + exists (x :: y :: l). repeat split; auto.
      assert (Lt : key x < key y).
      { assert (key y <> key x) by (apply D; now left). lia. }
      constructor; auto. constructor; auto.
      rewrite Forall_forall in *. intros z Hz. specialize (F _ Hz).
      unfold key_lt in *. lia.
Qed.

Lemma list_sort_ok (l : list entry) :
  NoDup (map key l) ->
  exists r, list_sort l = Ok r /\ Permutation l r /\ StronglySorted key_lt r.
Proof.
  induction l as [| x l IH]; simpl; intro N.
  - exists []. repeat split; auto. constructor.
  - inversion N as [| ? ? Nx N']; subst.
    destruct IH as (r & E & P & S); auto.
    rewrite E. simpl.
    destruct (insert_sorted_ok x r) as (r' & E' & P' & S'); auto.
    + intros y Hy Heq. apply Nx. rewrite <- Heq. apply in_map.
      eapply Permutation_in; [apply Permutation_sym; exact P | exact Hy].
    + exists r'. repeat split; auto.
      apply perm_trans with (x :: r); [now apply perm_skip | exact P'].
Qed.

(** Selecting nodes keeps their addresses distinct. *)
Lemma distinct_addresses_filter (keep : node -> bool) (nds : list node) :
  NoDup (map address nds) -> NoDup (map address (filter keep nds)).
Proof.
  intro N. induction nds as [| nd nds IH]; simpl in *; [exact N |].
  apply NoDup_cons_iff in N. destruct N as [Fresh N].
  destruct (keep nd); simpl; [| now apply IH].
  apply NoDup_cons_iff. split; [| now apply IH].
  intro H. apply Fresh.
  apply in_map_iff in H. destruct H as (x & E & Hx).
  apply filter_In in Hx. rewrite <- E. apply in_map. tauto.
Qed.

(** [get_sentence] returns the selected nodes in ascending address. *)
Lemma get_sentence_sorted (g : DependencyGraph) (include_root : bool) :
  NoDup (map address (nodes g)) ->
  exists ns,
    Permutation (filter (fun nd => include_root || has_word nd) (nodes g)) ns /\
    StronglySorted addr_lt ns /\
    get_sentence g include_root = Ok (map token_of ns).
Proof.
  intro N. unfold get_sentence.
  set (fl := filter (fun nd => include_root || has_word nd) (nodes g)).
  destruct (list_sort_ok (map entry_of fl)) as (r & E & P & S).
  { rewrite map_map. simpl. unfold fl.
    apply distinct_addresses_filter. exact N. }
  apply Permutation_sym, Permutation_map_inv in P.
  destruct P as (ns & -> & P).
  exists ns. repeat split; auto.
  - apply (sorted_map_rank node address).
    clear - S. induction ns as [| a ns IH]; simpl in *; [constructor |].
    inversion S as [| ? ? S' F]; subst. constructor; auto.
    rewrite Forall_forall in *. intros z Hz.
    apply in_map_iff in Hz. destruct Hz as (nd & <- & Hnd).
    apply (F (entry_of nd)). now apply in_map.
  - rewrite E. simpl. now rewrite map_map.
Qed.

Lemma perm_split_out {A : Type} (p : A -> bool) (r : A) (l : list A) :
  NoDup l -> In r l -> p r = false ->
  (forall x, In x l -> x <> r -> p x = true) ->
  Permutation l (r :: filter p l).
Proof.
  induction l as [| a l IH]; simpl; intros N I Pr All.
  - contradiction.
  - inversion N as [| ? ? Na N']; subst.
    destruct I as [-> | I].
    + rewrite Pr. apply perm_skip.
      assert (E : filter p l = l).
      { clear - Na All. induction l as [| b l IH]; simpl; auto.
        assert (Hb : p b = true).
        { apply All; [right; now left |]. intros ->. apply Na. now left. }
        rewrite Hb. f_equal. apply IH.
        - intro H. apply Na. now right.
        - intros x Hx. apply All. simpl in *. tauto. }
      now rewrite E.
    + assert (a <> r) by congruence.
      rewrite (All a) by auto.
      apply perm_trans with (a :: r :: filter p l); [| apply perm_swap].
      apply perm_skip. apply IH; auto.
Qed.

(** With the root as the only node without a word, and below every
    other address, [include_root] puts its pair in front. *)
Lemma get_sentence_with_root (g : DependencyGraph) (root : node) (ns : list node) :
  NoDup (map address (nodes g)) ->
  Permutation (filter has_word (nodes g)) ns ->
  StronglySorted addr_lt ns ->
  In root (nodes g) -> address root = 0 -> word root = None ->
  (forall nd, In nd (nodes g) -> nd <> root ->
     has_word nd = true /\ 0 < address nd) ->
  get_sentence g true = Ok (token_of root :: map token_of ns).
Proof.
  intros N P S I A0 W Others.
  destruct (get_sentence_sorted g true N) as (ns' & P' & S' & E).
  rewrite E. do 2 f_equal. change (map token_of ns' = map token_of (root :: ns)).
  f_equal. apply (sorted_perm_unique node address); auto.
  - constructor; auto. rewrite Forall_forall. intros nd Hnd.
    apply Permutation_sym in P.
    apply (Permutation_in _ P), filter_In in Hnd. destruct Hnd as [Hin Hw].
    unfold addr_lt. rewrite A0. apply Others; auto.
    intros ->. unfold has_word in Hw. rewrite W in Hw. discriminate.
  - apply perm_trans with (nodes g).
    + apply Permutation_sym. simpl in P'.
      clear - P'. revert P'. generalize (nodes g) as l. intros l.
      assert (F : filter (fun _ : node => true) l = l).
      { induction l; simpl; congruence. }
      now rewrite F.
    + apply perm_trans with (root :: filter has_word (nodes g)).
      * apply perm_split_out; auto.
        -- eapply NoDup_map_inv; exact N.
        -- unfold has_word. now rewrite W.
        -- intros x Hx Hne. now apply Others.
      * now apply perm_skip.
Qed.

Lemma sorted_seq_from (start n : nat) :
  StronglySorted Z.lt (map Z.of_nat (seq start n)).
Proof.
  revert start. induction n as [| n IH]; intro start; simpl; constructor; auto.
  rewrite Forall_forall. intros z Hz.
  apply in_map_iff in Hz. destruct Hz as (k & <- & Hk).
  apply in_seq in Hk. lia.
Qed.

(** With the word addresses being 1, ..., n, the sorted list holds the
    node of address [i + 1] at position [i]. *)
Lemma sorted_addresses (g : DependencyGraph) (ns : list node) (n : nat) :
  Permutation (filter has_word (nodes g)) ns ->
  StronglySorted addr_lt ns ->
  Permutation (map address (filter has_word (nodes g))) (map Z.of_nat (seq 1 n)) ->
  map address ns = map Z.of_nat (seq 1 n).
Proof.
  intros P S C.
  apply (sorted_perm_unique Z (fun z => z)).
  - clear - S. induction S as [| a l S IH F]; simpl; constructor; auto.
    rewrite Forall_forall in *. intros z Hz.
    apply in_map_iff in Hz. destruct Hz as (nd & <- & Hnd). now apply F.
  - apply sorted_seq_from.
  - apply perm_trans with (map address (filter has_word (nodes g))); auto.
    apply Permutation_map, Permutation_sym, P.
Qed.

Lemma index_of_sorted (g : DependencyGraph) (ns : list node) (n : nat) :
  Permutation (filter has_word (nodes g)) ns ->
  StronglySorted addr_lt ns ->
  Permutation (map address (filter has_word (nodes g))) (map Z.of_nat (seq 1 n)) ->
  forall nd, In nd (nodes g) -> has_word nd = true ->
    nth_error (sentence (__init__ (map token_of ns))) (Z.to_nat (address nd))
    = Some (token_of nd).
Proof.
  intros P Hs C nd Hin Hw.
  pose proof (sorted_addresses g ns n P Hs C) as E.
  assert (Hns : In nd ns).
  { eapply Permutation_in; [exact P |]. apply filter_In. auto. }
  apply In_nth_error in Hns. destruct Hns as [i Hi].
  assert (Ha : nth_error (map address ns) i = Some (address nd))
    by (rewrite nth_error_map, Hi; reflexivity).
  rewrite E, nth_error_map in Ha.
  destruct (nth_error (seq 1 n) i) as [k |] eqn:Hk; [| discriminate].
  assert (Hlen : (i < n)%nat).
  { assert (L : (i < List.length (seq 1 n))%nat)
      by (apply nth_error_Some; congruence).
    now rewrite length_seq in L. }
  apply (nth_error_nth _ _ 0%nat) in Hk.
  rewrite seq_nth in Hk by exact Hlen. subst k.
  injection Ha as Ha.
  assert (Ei : Z.to_nat (address nd) = S i) by lia.
  rewrite Ei. simpl.
  rewrite nth_error_map, Hi. reflexivity.
Qed.

(** * The oracle *)

(** C1: the oracle is to answer LEFT-ARC, RIGHT-ARC or SHIFT according to
    the gold tree. On the code, [get_oracle] answers [(-1, None)] in every
    state and for every graph: for the fresh state of the "book a flight"
    sentence, where SHIFT is due, and for the state with stack
    [0, 1, 2, 3], where LEFT-ARC with "det" is due. [-1] is none of the
    three transition ids. *)
Theorem get_oracle_answers_no_transition :
  (forall graph pp, get_oracle graph pp = Ok ((-1, None), pp)) /\
  get_oracle book_graph (__init__ book_sentence)
    <> Ok ((shift_id, None), __init__ book_sentence) /\
  (let pp := {| sentence := (None, root_tag) :: book_sentence;
                stack := [0; 1; 2; 3]; next := 4; arcs := [] |} in
   get_head 2 book_graph = Some 3 /\
   get_deps 2 book_graph = [] /\
   get_dep_rel 2 book_graph = Some "det" /\
   get_oracle book_graph pp <> Ok ((left_arc_id, Some "det"), pp)) /\
  -1 <> left_arc_id /\ -1 <> right_arc_id /\ -1 <> shift_id.
Proof.
  split; [intros; apply get_oracle_eq |].
  split; [rewrite get_oracle_eq; discriminate |].
  split; [| unfold left_arc_id, right_arc_id, shift_id; lia].
  cbv zeta. repeat split; try reflexivity.
  rewrite get_oracle_eq. discriminate.
Qed.

(** C2: driving a fresh state with the oracle is to end in a complete
    state whose arcs are the gold arcs. On the code, the loop over
    [get_oracle] and [parse_step] is never left, whatever the number of
    rounds, and the state stays the fresh one: for "book a flight" the
    arcs remain empty instead of becoming (0,1,root), (3,2,det),
    (1,3,obj). *)
Theorem oracle_parse_never_completes (fuel : nat) :
  oracle_parse fuel book_graph (__init__ book_sentence)
    = Ok (false, __init__ book_sentence) /\
  arcs (__init__ book_sentence) = [] /\
  [(get_head 1 book_graph, 1, get_dep_rel 1 book_graph);
   (get_head 2 book_graph, 2, get_dep_rel 2 book_graph);
   (get_head 3 book_graph, 3, get_dep_rel 3 book_graph)]
  = [(Some 0, 1, Some "root"); (Some 3, 2, Some "det"); (Some 1, 3, Some "obj")].
Proof.
  split; [apply oracle_parse_eq |]. split; reflexivity.
Qed.

(** * The transition engine *)

(** C3: a LEFT-ARC step on a stack of two or more is to record the arc
    (top, second, label) and drop the second element, and is to fail on a
    shorter stack. On the code, the step on stack [0, 1, 2] returns [None]
    with the state as it was (no arc (2, 1, det), stack still [0, 1, 2]),
    and the step on the fresh stack [0] returns [None] as well instead
    of failing. *)
Theorem left_arc_step_changes_nothing :
  (let pp := {| sentence := (None, root_tag) :: book_sentence;
                stack := [0; 1; 2]; next := 3; arcs := [] |} in
   parse_step left_arc_id (Some "det") pp = Ok (VNone, pp) /\
   arcs pp <> [(2, 1, Some "det")] /\
   stack pp <> [0; 2]) /\
  parse_step left_arc_id (Some "det") (__init__ book_sentence)
    = Ok (VNone, __init__ book_sentence) /\
  stack (__init__ book_sentence) = [0].
Proof.
  cbv zeta. repeat split; try reflexivity; simpl; discriminate.
Qed.

(** C4: [parse_step] is to raise [ValueError] exactly on an illegal
    transition. On the code it raises in no case: on the fresh state of
    the empty sentence (buffer empty, one element on the stack) SHIFT,
    RIGHT-ARC, LEFT-ARC and the id 7 all return [None]. *)
Theorem illegal_steps_are_not_rejected :
  let pp := __init__ [] in
  next pp = Z.of_nat (List.length (sentence pp)) /\
  List.length (stack pp) = 1%nat /\
  parse_step shift_id None pp = Ok (VNone, pp) /\
  parse_step right_arc_id (Some "root") pp = Ok (VNone, pp) /\
  parse_step left_arc_id (Some "root") pp = Ok (VNone, pp) /\
  parse_step 7 None pp = Ok (VNone, pp) /\
  (forall transition_id deprel q e,
     parse_step transition_id deprel q <> Raise e).
Proof.
  cbv zeta. repeat split; try reflexivity.
  intros. rewrite parse_step_eq. discriminate.
Qed.

(** C5: [complete] is to be true exactly when one element is on the
    stack and the buffer is empty. On the code it is [None], which is
    not true, for every state: also for the fresh state of the empty
    sentence, which meets the condition. It leaves the state as it was. *)
Theorem complete_is_none :
  (forall pp, complete pp = Ok (VNone, pp)) /\
  truth VNone = false /\
  completion_condition (__init__ []) = true /\
  complete (__init__ []) <> Ok (VBool true, __init__ []).
Proof.
  repeat split; try reflexivity. rewrite complete_eq. discriminate.
Qed.

(** C7: [minibatch_parse] is to return one list of arcs per sentence, in
    input order. On the code every call raises [NameError] for [arcs],
    the empty list of sentences included. *)
Theorem minibatch_parse_raises :
  (forall sentences model batch_size,
     minibatch_parse sentences model batch_size = Raise (NameError "arcs")) /\
  (forall model, minibatch_parse [] model 1 <> Ok []).
Proof.
  split; intros; [reflexivity | discriminate].
Qed.

(** C8: a sequence of transitions that completes a parse of [n] words is
    to hold [n] SHIFTs and [n] arcs. On the code no step is refused and
    none changes the state: for the empty sentence ([n = 0]) the sequence
    of one SHIFT runs through and ends in the fresh state, which meets the
    completion condition; for a sentence of one word SHIFT followed by
    RIGHT-ARC ends in the fresh state too, with no arc and the word still
    in the buffer. *)
Theorem shift_count_not_kept :
  parse [(shift_id, None)] (__init__ []) = Ok ([], __init__ []) /\
  completion_condition (__init__ []) = true /\
  count_id shift_id [(shift_id, None)] = 1%nat /\
  List.length (@nil token) = 0%nat /\
  (let s := [(Some "a", "DT")] in
   parse [(shift_id, None); (right_arc_id, Some "root")] (__init__ s)
     = Ok ([], __init__ s) /\
   completion_condition (__init__ s) = false).
Proof.
  cbv zeta. repeat split; reflexivity.
Qed.

(** * The initial state *)

(** C9: the constructor puts the pair [(None, "TOP")] in front of the
    sentence, so that the word at input position [i] has index [i + 1];
    the stack is [0], [next] is 1 and there are no arcs. For the empty
    sentence this state has one element on its stack and
    [next = len(sentence) = 1], with no transition applied and no arc. *)
Theorem init_state (s : list token) :
  sentence (__init__ s) = (None, "TOP") :: s /\
  (forall i, nth_error (sentence (__init__ s)) (S i) = nth_error s i) /\
  stack (__init__ s) = [0] /\
  next (__init__ s) = 1 /\
  arcs (__init__ s) = [] /\
  (List.length (stack (__init__ [])) = 1%nat /\
   next (__init__ []) = Z.of_nat (List.length (sentence (__init__ []))) /\
   Z.of_nat (List.length (sentence (__init__ []))) = 1 /\
   arcs (__init__ []) = [] /\
   completion_condition (__init__ []) = true).
Proof.
  repeat split; reflexivity.
Qed.

(** * Sentences from graphs *)

(** C10 as stated fails: in a graph whose words sit at addresses 1 and 3,
    [get_sentence] returns the two pairs in address order, and the word of
    address 3 gets index 2 in the parse state; index 3 is past the end. *)
Lemma gap_graph_index_is_not_address :
  NoDup (map address (nodes gap_graph)) /\
  get_sentence gap_graph false = Ok [(Some "a", "DT"); (Some "b", "NN")] /\
  nth_error (sentence (__init__ [(Some "a", "DT"); (Some "b", "NN")])) 2
    = Some (Some "b", "NN") /\
  ~ word_index_is_address gap_graph.
Proof.
  split.
  { simpl. repeat constructor; simpl; intuition lia. }
  split; [reflexivity |]. split; [reflexivity |].
  intros (s & E & H).
  vm_compute in E. injection E as <-.
  specialize (H (mkNode 3 (Some "b") "NN" (Some 1) (Some "dep") [])).
  simpl in H. discriminate H; auto.
Qed.

(** C10, amended: for a graph whose nodes have pairwise distinct
    addresses, [get_sentence(graph, False)] returns the [(word, ctag)]
    pairs of exactly the nodes that have a word, in ascending address
    order. If the root (address 0) is the only node without a word and
    every other address is positive, [get_sentence(graph, True)] is that
    list with the root's pair in front. If the addresses of the nodes
    with a word are 1, ..., n, then in [PartialParse] of the first list
    every word has its address as index. *)
Theorem get_sentence_by_address (g : DependencyGraph) :
  NoDup (map address (nodes g)) ->
  exists ns,
    Permutation (filter has_word (nodes g)) ns /\
    StronglySorted addr_lt ns /\
    get_sentence g false = Ok (map token_of ns) /\
    (forall root,
       In root (nodes g) -> address root = 0 -> word root = None ->
       (forall nd, In nd (nodes g) -> nd <> root ->
          has_word nd = true /\ 0 < address nd) ->
       get_sentence g true = Ok (token_of root :: map token_of ns)) /\
    (forall n,
       Permutation (map address (filter has_word (nodes g)))
                   (map Z.of_nat (seq 1 n)) ->
       word_index_is_address g).
Proof.
  intro N.
  destruct (get_sentence_sorted g false N) as (ns & P & S & E).
  simpl in P.
  exists ns. repeat split; auto.
  - intros root I A0 W Others.
    apply get_sentence_with_root; auto.
  - intros n C. exists (map token_of ns). split; [exact E |].
    intros nd Hin Hw. eapply index_of_sorted; eauto.
Qed.

(** The amended C10 at the "book a flight" graph: root at 0, words at
    1, 2, 3. *)
Lemma get_sentence_by_address_book :
  NoDup (map address (nodes book_graph)) /\
  get_sentence book_graph false = Ok book_sentence /\
  get_sentence book_graph true = Ok ((None, "TOP") :: book_sentence) /\
  word_index_is_address book_graph.
Proof.
  assert (N : NoDup (map address (nodes book_graph))).
  { simpl. repeat constructor; simpl; intuition lia. }
  split; [exact N |].
  destruct (get_sentence_by_address book_graph N) as (ns & P & S & E & R & C).
  assert (Es : map token_of ns = book_sentence).
  { vm_compute in E. injection E as E. symmetry. exact E. }
  split; [rewrite E, Es; reflexivity |].
  split.
  - rewrite (R (mkNode 0 None "TOP" None None [("root", [1])])).
    + rewrite Es. reflexivity.
    + now left.
    + reflexivity.
    + reflexivity.
    + intros nd [<- | [<- | [<- | [<- | []]]]] Hne;
        [now contradiction Hne | | |]; split; reflexivity.
  - apply (C 3%nat). simpl. apply Permutation_refl.
Defined.

(** * Left and right dependants *)




(** * Dictionaries built from tuples *)

Lemma opt_string_eqb_eq (a b : option string) :
  opt_string_eqb a b = true <-> a = b.
Proof.
  destruct a as [x |], b as [y |]; simpl; try (split; congruence).
  rewrite String.eqb_eq. split; congruence.
Qed.

Lemma opt_string_eqb_refl (a : option string) : opt_string_eqb a a = true.
Proof. now apply opt_string_eqb_eq. Qed.

Lemma opt_string_eqb_neq (a b : option string) :
  a <> b -> opt_string_eqb a b = false.
Proof.
  intro H. destruct (opt_string_eqb a b) eqn:E; [| reflexivity].
  apply opt_string_eqb_eq in E. contradiction.
Qed.

(** Reading after writing: the written key reads the new value, every
    other key reads what it read before. *)
Lemma dict_get_set {V : Type} (d : dict V) (k k' : option string) (v default : V) :
  dict_get (dict_set d k v) k' default
  = if opt_string_eqb k k' then v else dict_get d k' default.
Proof.
  induction d as [| [k0 v0] d IH]; simpl.
  - reflexivity.
  - destruct (opt_string_eqb k0 k) eqn:E0; simpl.
    + apply opt_string_eqb_eq in E0. subst k0.
      destruct (opt_string_eqb k k'); reflexivity.
    + rewrite IH. destruct (opt_string_eqb k0 k') eqn:E1; [| reflexivity].
      apply opt_string_eqb_eq in E1. subst k'.
      now rewrite (opt_string_eqb_neq k k0) by (intros ->; now rewrite opt_string_eqb_refl in E0).
Qed.

Lemma enumerate_from_snoc {A : Type} (start : Z) (l : list A) (x : A) :
  enumerate_from start (l ++ [x])
  = (enumerate_from start l ++ [(start + len l, x)])%list.
Proof.
  revert start. induction l as [| y l IH]; intro start; simpl.
  - unfold len. simpl. now rewrite Z.add_0_r.
  - rewrite IH. f_equal. f_equal. f_equal. f_equal.
    unfold len. simpl List.length. lia.
Qed.

Lemma index_of_snoc (l : list (option string)) (x : option string) :
  Transducer.index_of (l ++ [x]) = dict_set (Transducer.index_of l) x (len l).
Proof.
  unfold Transducer.index_of, dict_from.
  rewrite enumerate_from_snoc, map_app, fold_left_app. reflexivity.
Qed.

Lemma tuple_at_snoc_last {A : Type} (l : list A) (x : A) :
  tuple_at (l ++ [x]) (len l) = Some x.
Proof.
  unfold tuple_at, len.
  assert (E : (Z.of_nat (List.length l) <? 0) = false)
    by (apply Z.ltb_ge; lia).
  rewrite E.
  rewrite Nat2Z.id, nth_error_app2 by lia. now rewrite Nat.sub_diag.
Qed.

Lemma tuple_at_snoc_before {A : Type} (l : list A) (x : A) (i : Z) :
  i < len l -> tuple_at (l ++ [x]) i = tuple_at l i.
Proof.
  unfold tuple_at, len. intro H.
  destruct (i <? 0) eqn:E; [reflexivity |].
  apply nth_error_app1. lia.
Qed.

Lemma tuple_at_range {A : Type} (l : list A) (i : Z) (x : A) :
  tuple_at l i = Some x -> 0 <= i < len l.
Proof.
  unfold tuple_at, len. destruct (Z.ltb_spec i 0) as [Neg | Pos]; [discriminate |].
  intro H. assert (L : (Z.to_nat i < List.length l)%nat)
    by (apply nth_error_Some; congruence).
  lia.
Qed.

(** A key of the tuple reads the last index it stands at. *)
Lemma index_of_found (l : list (option string)) (k : option string) (default : Z) :
  In k l ->
  let i := dict_get (Transducer.index_of l) k default in
  tuple_at l i = Some k /\ forall j, i < j -> tuple_at l j <> Some k.
Proof.
  induction l as [| x l IH] using rev_ind; [contradiction |].
  intro H. rewrite index_of_snoc, dict_get_set. cbv zeta.
  destruct (opt_string_eqb x k) eqn:E.
  - apply opt_string_eqb_eq in E. subst x. split.
    + apply tuple_at_snoc_last.
    + intros j Hj C. apply tuple_at_range in C.
      unfold len in *. rewrite length_app in C. simpl in C. lia.
  - assert (Hin : In k l).
    { apply in_app_or in H. destruct H as [H | [H | []]]; [exact H |].
      subst x. now rewrite opt_string_eqb_refl in E. }
    destruct (IH Hin) as [A B]. cbv zeta in A, B.
    pose proof (tuple_at_range _ _ _ A) as R. split.
    + rewrite tuple_at_snoc_before by lia. exact A.
    + intros j Hj C.
      destruct (Z.eq_dec j (len l)) as [-> | Hne].
      * rewrite tuple_at_snoc_last in C. injection C as ->.
        now rewrite opt_string_eqb_refl in E.
      * pose proof (tuple_at_range _ _ _ C) as R'.
        unfold len in R'. rewrite length_app in R'. simpl in R'.
        rewrite tuple_at_snoc_before in C by (unfold len in *; lia).
        exact (B j Hj C).
Qed.

(** A key that is not in the tuple reads the default. *)
Lemma index_of_missing (l : list (option string)) (k : option string) (default : Z) :
  ~ In k l -> dict_get (Transducer.index_of l) k default = default.
Proof.
  induction l as [| x l IH] using rev_ind; intro H; [reflexivity |].
  rewrite index_of_snoc, dict_get_set.
  rewrite opt_string_eqb_neq.
  - apply IH. intro C. apply H, in_or_app. now left.
  - intros ->. apply H, in_or_app. right. now left.
Qed.

(** * The id tables of [Transducer] *)

Lemma opt_string_eq_dec (a b : option string) : {a = b} + {a <> b}.
Proof. decide equality. apply string_dec. Qed.

Lemma table_len (r u : option string) (items : list string) :
  len ((r :: map Some items) ++ [u])%list = len items + 2.
Proof.
  unfold len. simpl. rewrite length_app, length_map. simpl. lia.
Qed.

Lemma table_last (r u : option string) (items : list string) :
  tuple_at ((r :: map Some items) ++ [u])%list (len items + 1) = Some u.
Proof.
  replace (len items + 1) with (len (r :: map Some items)).
  - apply tuple_at_snoc_last.
  - unfold len. simpl. rewrite length_map. lia.
Qed.

Lemma lookup_in_range (v : list (option string)) (k : option string) :
  v <> [] ->
  0 <= dict_get (Transducer.index_of v) k (len v - 1) < len v.
Proof.
  intro Hv. destruct (in_dec opt_string_eq_dec k v) as [I | I].
  - destruct (index_of_found v k (len v - 1) I) as [A _].
    exact (tuple_at_range _ _ _ A).
  - rewrite index_of_missing by exact I.
    destruct v as [| y v]; [contradiction |].
    unfold len. simpl List.length. lia.
Qed.

Lemma lookup_round_trip (r u : option string) (items : list string)
    (k : option string) :
  let v := ((r :: map Some items) ++ [u])%list in
  tuple_at v (dict_get (Transducer.index_of v) k (len v - 1))
  = Some (if existsb (opt_string_eqb k) v then k else u).
Proof.
  intro v. destruct (existsb (opt_string_eqb k) v) eqn:E.
  - apply existsb_exists in E. destruct E as (x & I & E).
    apply opt_string_eqb_eq in E. subst x.
    now destruct (index_of_found v k (len v - 1) I) as [A _].
  - rewrite index_of_missing.
    + unfold v. rewrite table_len.
      replace (len items + 2 - 1) with (len items + 1) by lia.
      apply table_last.
    + intro I. assert (T : existsb (opt_string_eqb k) v = true).
      { apply existsb_exists. exists k. split; [exact I |].
        apply opt_string_eqb_refl. }
      congruence.
Qed.

Lemma listed_id (r u : option string) (items : list string) (i : nat)
    (x : string) (default : Z) :
  NoDup items -> u <> Some x -> nth_error items i = Some x ->
  dict_get (Transducer.index_of ((r :: map Some items) ++ [u])%list)
    (Some x) default
  = Z.of_nat i + 1.
Proof.
  intros N U Hi. set (v := ((r :: map Some items) ++ [u])%list).
  assert (Li : (i < List.length items)%nat)
    by (apply nth_error_Some; congruence).
  assert (At : tuple_at v (Z.of_nat i + 1) = Some (Some x)).
  { unfold tuple_at.
    assert (E : (Z.of_nat i + 1 <? 0) = false) by (apply Z.ltb_ge; lia).
    rewrite E. replace (Z.to_nat (Z.of_nat i + 1)) with (S i) by lia.
    unfold v. simpl. rewrite nth_error_app1 by (now rewrite length_map).
    now rewrite nth_error_map, Hi. }
  assert (I : In (Some x) v).
  { unfold tuple_at in At. destruct (Z.of_nat i + 1 <? 0); [discriminate |].
    eapply nth_error_In; exact At. }
  destruct (index_of_found v (Some x) default I) as [A B].
  set (j := dict_get (Transducer.index_of v) (Some x) default) in *.
  pose proof (tuple_at_range _ _ _ A) as R.
  destruct (Z.lt_trichotomy j (Z.of_nat i + 1)) as [L | [E | G]];
    [exfalso; exact (B _ L At) | exact E | exfalso].
  unfold tuple_at in A. destruct (j <? 0); [discriminate |].
  destruct (Z.to_nat j) as [| m] eqn:Em; [lia |].
  unfold v in A. simpl in A.
  destruct (Nat.lt_ge_cases m (List.length items)) as [Lm | Gm].
  - rewrite nth_error_app1 in A by (now rewrite length_map).
    rewrite nth_error_map in A.
    destruct (nth_error items m) as [y |] eqn:Hm; [| discriminate].
    injection A as ->.
    assert (m = i).
    { apply (proj1 (NoDup_nth_error items) N); [exact Lm | congruence]. }
    lia.
  - rewrite nth_error_app2 in A by (now rewrite length_map).
    rewrite length_map in A.
    destruct (m - List.length items)%nat as [| q]; simpl in A.
    + injection A as ->. now apply U.
    + destruct q; discriminate.
Qed.

Lemma root_id (r : option string) (items : list string) (default : Z) :
  ~ In r (map Some items) -> r <> Some "_" ->
  dict_get (Transducer.index_of ((r :: map Some items) ++ [Some "_"])%list)
    r default = 0.
Proof.
  intros Hr Hu.
  set (v := ((r :: map Some items) ++ [Some "_"])%list).
  assert (I : In r v) by (unfold v; simpl; now left).
  destruct (index_of_found v r default I) as [A B].
  set (j := dict_get (Transducer.index_of v) r default) in *.
  pose proof (tuple_at_range _ _ _ A) as R.
  destruct (Z.eq_dec j 0) as [E | E]; [exact E | exfalso].
  unfold tuple_at in A. destruct (j <? 0); [discriminate |].
  destruct (Z.to_nat j) as [| m] eqn:Em; [lia |].
  unfold v in A. simpl in A. apply nth_error_In in A.
  apply in_app_or in A. destruct A as [A | [A | []]]; [now apply Hr |].
  now apply Hu.
Qed.

Section DeprelTable.

Variables word_list tag_list deprel_list : list string.

Lemma deprel_unk_id :
  Transducer.unk_deprel_id
    (Transducer.__init__ word_list tag_list deprel_list)
  = len deprel_list + 1.
Proof.
  unfold Transducer.__init__. cbn [Transducer.unk_deprel_id].
  rewrite table_len. lia.
Qed.

Lemma deprel_id_range (deprel : option string) :
  let T := Transducer.__init__ word_list tag_list deprel_list in
  0 <= dict_get (Transducer.deprel2id T) deprel (Transducer.unk_deprel_id T)
    <= len deprel_list + 1.
Proof.
  cbv zeta. unfold Transducer.__init__.
  cbn [Transducer.unk_deprel_id Transducer.deprel2id].
  set (v := ((Transducer.root_deprel :: map Some deprel_list)
               ++ [Transducer.unk_deprel])%list).
  assert (Hv : v <> []) by (unfold v; discriminate).
  pose proof (lookup_in_range v deprel Hv) as R.
  assert (L : len v = len deprel_list + 2) by apply table_len.
  lia.
Qed.

Lemma deprel_id_back (deprel : option string) :
  let T := Transducer.__init__ word_list tag_list deprel_list in
  tuple_at (Transducer.id2deprel T)
    (dict_get (Transducer.deprel2id T) deprel (Transducer.unk_deprel_id T))
  = Some (if existsb (opt_string_eqb deprel) (Transducer.id2deprel T)
          then deprel else Transducer.unk_deprel).
Proof.
  cbv zeta. unfold Transducer.__init__.
  cbn [Transducer.unk_deprel_id Transducer.deprel2id Transducer.id2deprel].
  apply lookup_round_trip.
Qed.

Lemma deprel_listed_id (i : nat) (deprel : string) :
  NoDup deprel_list -> ~ In "_" deprel_list ->
  nth_error deprel_list i = Some deprel ->
  let T := Transducer.__init__ word_list tag_list deprel_list in
  dict_get (Transducer.deprel2id T) (Some deprel) (Transducer.unk_deprel_id T)
  = Z.of_nat i + 1.
Proof.
  intros N U Hi. cbv zeta. unfold Transducer.__init__.
  cbn [Transducer.unk_deprel_id Transducer.deprel2id].
  apply listed_id; auto.
  intro E. injection E as <-. apply U. eapply nth_error_In; exact Hi.
Qed.

Lemma deprel_root_id :
  ~ In "ROOT" deprel_list ->
  let T := Transducer.__init__ word_list tag_list deprel_list in
  dict_get (Transducer.deprel2id T) (Some "ROOT") (Transducer.unk_deprel_id T)
  = 0.
Proof.
  intro R. cbv zeta. unfold Transducer.__init__.
  cbn [Transducer.unk_deprel_id Transducer.deprel2id].
  apply root_id; [| discriminate].
  intro C. apply in_map_iff in C. destruct C as (y & E & Hy).
  injection E as ->. now apply R.
Qed.

End DeprelTable.

(** The unknown id of each table is the length of its list plus 1 and
    the null id the length plus 2. A lookup that falls back on the
    unknown id always gives an index of the id tuple; the null id is
    past its end. *)
Theorem transducer_id_ranges (word_list tag_list deprel_list : list string) :
  let T := Transducer.__init__ word_list tag_list deprel_list in
  (Transducer.unk_word_id T = len word_list + 1 /\
   Transducer.null_word_id T = len word_list + 2 /\
   Transducer.unk_tag_id T = len tag_list + 1 /\
   Transducer.null_tag_id T = len tag_list + 2 /\
   Transducer.unk_deprel_id T = len deprel_list + 1 /\
   Transducer.null_deprel_id T = len deprel_list + 2) /\
  (forall w,
     0 <= dict_get (Transducer.word2id T) w (Transducer.unk_word_id T)
       < Transducer.null_word_id T) /\
  (forall tag,
     0 <= dict_get (Transducer.tag2id T) tag (Transducer.unk_tag_id T)
       < Transducer.null_tag_id T) /\
  (forall deprel,
     0 <= dict_get (Transducer.deprel2id T) deprel (Transducer.unk_deprel_id T)
       < Transducer.null_deprel_id T) /\
  tuple_at (Transducer.id2word T) (Transducer.null_word_id T) = None /\
  tuple_at (Transducer.id2tag T) (Transducer.null_tag_id T) = None /\
  tuple_at (Transducer.id2deprel T) (Transducer.null_deprel_id T) = None.
Proof.
  cbv zeta. unfold Transducer.__init__. cbn [Transducer.unk_word_id
    Transducer.null_word_id Transducer.unk_tag_id Transducer.null_tag_id
    Transducer.unk_deprel_id Transducer.null_deprel_id Transducer.word2id
    Transducer.tag2id Transducer.deprel2id Transducer.id2word
    Transducer.id2tag Transducer.id2deprel].
  assert (Past : forall (v : list (option string)), tuple_at v (len v) = None).
  { intro v. unfold tuple_at, len.
    destruct (Z.of_nat (List.length v) <? 0); [reflexivity |].
    apply nth_error_None. lia. }
  assert (In_range : forall r u items k,
    0 <= dict_get (Transducer.index_of ((r :: map Some items) ++ [u])%list) k
           (len ((r :: map Some items) ++ [u])%list - 1)
      < len ((r :: map Some items) ++ [u])%list).
  { intros r u items k. apply lookup_in_range.
    destruct (map Some items); discriminate. }
  split; [rewrite !table_len; repeat split; lia |].
  split; [intro k; apply In_range |].
  split; [intro k; apply In_range |].
  split; [intro k; apply In_range |].
  repeat split; apply Past.
Qed.

(** Mapping a word, tag or relation to its id and the id back through
    the id tuple gives the same value when the value is in the tuple,
    and the unknown placeholder ["_"] when it is not. *)
Theorem transducer_round_trip (word_list tag_list deprel_list : list string) :
  let T := Transducer.__init__ word_list tag_list deprel_list in
  (forall w,
     tuple_at (Transducer.id2word T)
       (dict_get (Transducer.word2id T) w (Transducer.unk_word_id T))
     = Some (if existsb (opt_string_eqb w) (Transducer.id2word T)
             then w else Transducer.unk_word)) /\
  (forall tag,
     tuple_at (Transducer.id2tag T)
       (dict_get (Transducer.tag2id T) tag (Transducer.unk_tag_id T))
     = Some (if existsb (opt_string_eqb tag) (Transducer.id2tag T)
             then tag else Transducer.unk_tag)) /\
  (forall deprel,
     tuple_at (Transducer.id2deprel T)
       (dict_get (Transducer.deprel2id T) deprel (Transducer.unk_deprel_id T))
     = Some (if existsb (opt_string_eqb deprel) (Transducer.id2deprel T)
             then deprel else Transducer.unk_deprel)).
Proof.
  cbv zeta. unfold Transducer.__init__. cbn [Transducer.unk_word_id
    Transducer.unk_tag_id Transducer.unk_deprel_id Transducer.word2id
    Transducer.tag2id Transducer.deprel2id Transducer.id2word
    Transducer.id2tag Transducer.id2deprel].
  split; [| split]; intro k; apply lookup_round_trip.
Qed.

(** The entries of a list without repetitions and without ["_"] get
    the ids 1, 2, ... in list order; the root word gets id 0, and the
    root tag and the root relation get id 0 when the lists do not hold
    ["TOP"] and ["ROOT"]. *)
Theorem transducer_list_ids (word_list tag_list deprel_list : list string) :
  let T := Transducer.__init__ word_list tag_list deprel_list in
  (NoDup word_list -> ~ In "_" word_list ->
   forall i w, nth_error word_list i = Some w ->
     dict_get (Transducer.word2id T) (Some w) (Transducer.unk_word_id T)
     = Z.of_nat i + 1) /\
  (NoDup tag_list -> ~ In "_" tag_list ->
   forall i tag, nth_error tag_list i = Some tag ->
     dict_get (Transducer.tag2id T) (Some tag) (Transducer.unk_tag_id T)
     = Z.of_nat i + 1) /\
  (NoDup deprel_list -> ~ In "_" deprel_list ->
   forall i deprel, nth_error deprel_list i = Some deprel ->
     dict_get (Transducer.deprel2id T) (Some deprel) (Transducer.unk_deprel_id T)
     = Z.of_nat i + 1) /\
  dict_get (Transducer.word2id T) None (Transducer.unk_word_id T) = 0 /\
  (~ In "TOP" tag_list ->
   dict_get (Transducer.tag2id T) (Some "TOP") (Transducer.unk_tag_id T) = 0) /\
  (~ In "ROOT" deprel_list ->
   dict_get (Transducer.deprel2id T) (Some "ROOT") (Transducer.unk_deprel_id T) = 0).
Proof.
  cbv zeta. unfold Transducer.__init__. cbn [Transducer.unk_word_id
    Transducer.unk_tag_id Transducer.unk_deprel_id Transducer.word2id
    Transducer.tag2id Transducer.deprel2id].
  assert (Listed : forall r items i x d,
    NoDup items -> ~ In "_" items -> nth_error items i = Some x ->
    dict_get (Transducer.index_of ((r :: map Some items) ++ [Some "_"])%list)
      (Some x) d = Z.of_nat i + 1).
  { intros r items i x d N U Hi. apply listed_id; auto.
    intro E. injection E as <-. apply U. eapply nth_error_In; exact Hi. }
  assert (Root : forall r items d,
    ~ In r (map Some items) -> r <> Some "_" ->
    dict_get (Transducer.index_of ((r :: map Some items) ++ [Some "_"])%list)
      r d = 0).
  { intros r items d Hr Hu. now apply root_id. }
  assert (NotListed : forall (x : string) (items : list string),
    ~ In x items -> ~ In (Some x) (map Some items)).
  { intros x items H C. apply in_map_iff in C.
    destruct C as (y & E & Hy). injection E as ->. now apply H. }
  split; [intros; now apply Listed |].
  split; [intros; now apply Listed |].
  split; [intros; now apply Listed |].
  split.
  { apply Root; [| discriminate].
    intro C. apply in_map_iff in C. destruct C as (y & E & _). discriminate. }
  split; intro H; (apply Root; [now apply NotListed | discriminate]).
Qed.

(** [transducer_list_ids] at the lists [the, cat], [DT, NN], [det]. *)
Lemma transducer_list_ids_example :
  let T := Transducer.__init__ ["the"; "cat"] ["DT"; "NN"] ["det"] in
  dict_get (Transducer.word2id T) (Some "cat") (Transducer.unk_word_id T) = 2 /\
  dict_get (Transducer.tag2id T) (Some "DT") (Transducer.unk_tag_id T) = 1 /\
  dict_get (Transducer.deprel2id T) (Some "det") (Transducer.unk_deprel_id T) = 1 /\
  dict_get (Transducer.tag2id T) (Some "TOP") (Transducer.unk_tag_id T) = 0.
Proof.
  destruct (transducer_list_ids ["the"; "cat"] ["DT"; "NN"] ["det"])
    as (W & Tg & D & _ & Rt & _).
  assert (Two : forall a b : string, a <> b -> NoDup [a; b]).
  { intros a b H. constructor; [simpl; intuition congruence |].
    constructor; [simpl; tauto | constructor]. }
  assert (Nw : NoDup ["the"; "cat"]) by (apply Two; discriminate).
  assert (Nt : NoDup ["DT"; "NN"]) by (apply Two; discriminate).
  assert (Nd : NoDup ["det"]) by (repeat constructor; simpl; tauto).
  assert (Uw : ~ In "_" ["the"; "cat"]) by (simpl; intuition discriminate).
  assert (Ut : ~ In "_" ["DT"; "NN"]) by (simpl; intuition discriminate).
  assert (Ud : ~ In "_" ["det"]) by (simpl; intuition discriminate).
  cbv zeta. split; [| split; [| split]].
  - exact (W Nw Uw 1%nat "cat" eq_refl).
  - exact (Tg Nt Ut 0%nat "DT" eq_refl).
  - exact (D Nd Ud 0%nat "det" eq_refl).
  - apply Rt. simpl. intuition discriminate.
Defined.

(** * Transition vectors *)

Lemma firstn_zeros (a n : nat) :
  (a <= n)%nat -> firstn a (repeat 0 n) = repeat 0 a.
Proof.
  revert n. induction a as [| a IH]; intros n H; [reflexivity |].
  destruct n as [| n]; [lia |]. simpl. f_equal. apply IH. lia.
Qed.

Lemma skipn_zeros (a n : nat) : skipn a (repeat 0 n) = repeat 0 (n - a).
Proof.
  revert n. induction a as [| a IH]; intro n; simpl.
  - now rewrite Nat.sub_0_r.
  - destruct n as [| n]; [reflexivity |]. simpl. apply IH.
Qed.

(** Setting one entry of a zero vector. *)
Lemma one_hot (n i : Z) :
  0 <= i < n ->
  Transducer.vec_set (Transducer.zeros n) i 1
  = Some (repeat 0 (Z.to_nat i) ++ 1 :: repeat 0 (Z.to_nat (n - i - 1)))%list.
Proof.
  intro H. unfold Transducer.vec_set, Transducer.zeros, len.
  rewrite repeat_length.
  assert (E1 : (0 <=? i) = true) by (apply Z.leb_le; lia).
  assert (E2 : (i <? Z.of_nat (Z.to_nat n)) = true) by (apply Z.ltb_lt; lia).
  rewrite E1, E2. simpl andb. cbv iota.
  rewrite firstn_zeros by lia. rewrite skipn_zeros.
  replace (Z.to_nat n - S (Z.to_nat i))%nat with (Z.to_nat (n - i - 1)) by lia.
  reflexivity.
Qed.

Lemma argmax_from_zeros (m : nat) (best_idx best idx : Z) (rest : list Z) :
  0 <= best ->
  Transducer.argmax_from best_idx best idx (repeat 0 m ++ rest)%list
  = Transducer.argmax_from best_idx best (idx + Z.of_nat m) rest.
Proof.
  intro H. revert idx. induction m as [| m IH]; intro idx; simpl repeat; simpl app.
  - now rewrite Z.add_0_r.
  - simpl. assert (E : (best <? 0) = false) by (apply Z.ltb_ge; lia).
    rewrite E, IH. f_equal. lia.
Qed.

Lemma argmax_one_hot (a b : nat) :
  Transducer.argmax (repeat 0 a ++ 1 :: repeat 0 b)%list = Some (Z.of_nat a).
Proof.
  assert (Keep : forall k best_idx idx,
            Transducer.argmax_from best_idx 1 idx (repeat 0 k) = best_idx).
  { intros k best_idx idx.
    rewrite <- (app_nil_r (repeat 0 k)), argmax_from_zeros by lia.
    reflexivity. }
  destruct a as [| a].
  - cbn [repeat app Transducer.argmax]. now rewrite Keep.
  - cbn [repeat app Transducer.argmax].
    rewrite argmax_from_zeros by lia.
    cbn [Transducer.argmax_from].
    replace (0 <? 1) with true by reflexivity.
    rewrite Keep. f_equal. lia.
Qed.

Lemma vec_sum_zeros (n : nat) : Transducer.vec_sum (repeat 0 n) = 0.
Proof. induction n as [| n IH]; simpl; [reflexivity | exact IH]. Qed.

Lemma vec_sum_app (u v : list Z) :
  Transducer.vec_sum (u ++ v)%list = Transducer.vec_sum u + Transducer.vec_sum v.
Proof.
  induction u as [| x u IH]; simpl; [reflexivity |]. rewrite IH. lia.
Qed.

Lemma vec_sum_firstn_zeros (q k : nat) :
  Transducer.vec_sum (firstn q (repeat 0 k)) = 0.
Proof.
  revert k. induction q as [| q IH]; intro k; [reflexivity |].
  destruct k as [| k]; [reflexivity |]. simpl. apply IH.
Qed.

(** The part [v[1:b]] of a vector with its 1 at index [i >= 1] sums to
    1 when [i < b] and to 0 otherwise. *)
Lemma slice_sum_one_hot (i k : nat) (b : Z) :
  (1 <= i)%nat ->
  Transducer.vec_sum
    (Transducer.slice (repeat 0 i ++ 1 :: repeat 0 k)%list 1 b)
  = if Z.of_nat i <? b then 1 else 0.
Proof.
  intros Hi. unfold Transducer.slice.
  rewrite firstn_app, repeat_length.
  replace (Z.to_nat 1) with 1%nat by reflexivity.
  destruct (Z.ltb_spec (Z.of_nat i) b) as [L | L].
  - rewrite firstn_all2 by (rewrite repeat_length; lia).
    destruct (Z.to_nat b - i)%nat as [| q] eqn:Eq; [lia |].
    cbn [firstn]. rewrite skipn_app, repeat_length, skipn_zeros.
    replace (1 - i)%nat with 0%nat by lia. cbn [skipn].
    rewrite vec_sum_app, vec_sum_zeros. cbn [Transducer.vec_sum fold_right].
    change (fold_right Z.add 0 (firstn q (repeat 0 k)))
      with (Transducer.vec_sum (firstn q (repeat 0 k))).
    rewrite vec_sum_firstn_zeros. reflexivity.
  - replace (Z.to_nat b - i)%nat with 0%nat by lia.
    cbn [firstn]. rewrite app_nil_r, firstn_zeros by lia.
    rewrite skipn_zeros. apply vec_sum_zeros.
Qed.

Lemma one_hot_len (a b : nat) :
  len (repeat 0 a ++ 1 :: repeat 0 b)%list = Z.of_nat a + Z.of_nat b + 1.
Proof.
  unfold len. rewrite length_app, repeat_length. simpl List.length.
  rewrite repeat_length. lia.
Qed.

Lemma decode_one_hot (self : Transducer.t) (i : Z) (k : nat) :
  0 <= i ->
  Transducer.td_vec2trans_deprel self
    (repeat 0 (Z.to_nat i) ++ 1 :: repeat 0 k)%list None None None true
  = if i =? 0 then Some (shift_id, None)
    else if i <=? len (Transducer.id2deprel self) then
      match tuple_at (Transducer.id2deprel self) (i - 1) with
      | Some deprel => Some (left_arc_id, deprel)
      | None => None
      end
    else
      match tuple_at (Transducer.id2deprel self)
              (i - len (Transducer.id2deprel self) - 1) with
      | Some deprel => Some (right_arc_id, deprel)
      | None => None
      end.
Proof.
  intro H. unfold Transducer.td_vec2trans_deprel.
  rewrite argmax_one_hot, Z2Nat.id by exact H. reflexivity.
Qed.

(** A pair the oracle loop encodes as a vector is read back by
    [td_vec2trans_deprel]: a shift as a shift without label, a left-arc
    as a left-arc, every other transition id as a right-arc; the label
    comes back unchanged when it is in [id2deprel] and as ["_"] when it
    is not. The vector has [2 * len(id2deprel) + 1] entries. *)
Theorem td_vec_round_trip (word_list tag_list deprel_list : list string)
    (transition_id : Z) (deprel : option string) :
  let T := Transducer.__init__ word_list tag_list deprel_list in
  let label :=
    if existsb (opt_string_eqb deprel) (Transducer.id2deprel T)
    then deprel else Transducer.unk_deprel in
  exists td_vec,
    Transducer.td_vec_of T transition_id deprel = Some td_vec /\
    len td_vec = 2 * len (Transducer.id2deprel T) + 1 /\
    Transducer.td_vec2trans_deprel T td_vec None None None true
    = Some (if transition_id =? shift_id then (shift_id, None)
            else if transition_id =? left_arc_id then (left_arc_id, label)
            else (right_arc_id, label)).
Proof.
  intros T label.
  pose proof (deprel_id_range word_list tag_list deprel_list deprel) as Range.
  pose proof (deprel_id_back word_list tag_list deprel_list deprel) as Back.
  cbv zeta in Range, Back. fold T in Range, Back. fold label in Back.
  set (deprel_id := dict_get (Transducer.deprel2id T) deprel
                      (Transducer.unk_deprel_id T)) in *.
  assert (N : len (Transducer.id2deprel T) = len deprel_list + 2)
    by (unfold T, Transducer.__init__; cbn [Transducer.id2deprel]; apply table_len).
  unfold Transducer.td_vec_of. fold deprel_id.
  set (n := len (Transducer.id2deprel T)) in *.
  assert (Pos : 0 <= len deprel_list) by (unfold len; lia).
  destruct (transition_id =? shift_id).
  - rewrite one_hot by lia. eexists. split; [reflexivity |]. split.
    + rewrite one_hot_len. lia.
    + rewrite decode_one_hot by lia. reflexivity.
  - destruct (transition_id =? left_arc_id).
    + rewrite one_hot by lia. eexists. split; [reflexivity |]. split.
      * rewrite one_hot_len. lia.
      * rewrite decode_one_hot by lia. fold n.
        assert (E0 : (1 + deprel_id =? 0) = false) by (apply Z.eqb_neq; lia).
        assert (E1 : (1 + deprel_id <=? n) = true) by (apply Z.leb_le; lia).
        rewrite E0, E1.
        replace (1 + deprel_id - 1) with deprel_id by lia.
        now rewrite Back.
    + rewrite one_hot by lia. eexists. split; [reflexivity |]. split.
      * rewrite one_hot_len. lia.
      * rewrite decode_one_hot by lia. fold n.
        assert (E0 : (1 + n + deprel_id =? 0) = false) by (apply Z.eqb_neq; lia).
        assert (E1 : (1 + n + deprel_id <=? n) = false) by (apply Z.leb_gt; lia).
        rewrite E0, E1.
        replace (1 + n + deprel_id - n - 1) with deprel_id by lia.
        now rewrite Back.
Qed.

(** * [remove_deprels] *)

Lemma dict_set_fresh {V : Type} (d : dict V) (k : option string) (v : V) :
  ~ In k (map fst d) -> dict_set d k v = (d ++ [(k, v)])%list.
Proof.
  induction d as [| [k0 v0] d IH]; simpl; intro H; [reflexivity |].
  rewrite opt_string_eqb_neq by tauto. f_equal. apply IH. tauto.
Qed.

(** A tuple without repetitions gives a dictionary with the same keys
    in the same order. *)
Lemma index_of_keys (l : list (option string)) :
  NoDup l -> map fst (Transducer.index_of l) = l.
Proof.
  induction l as [| x l IH] using rev_ind; intro N; [reflexivity |].
  apply NoDup_remove in N. rewrite app_nil_r in N. destruct N as [N Hx].
  rewrite index_of_snoc, dict_set_fresh by (rewrite IH; auto).
  rewrite map_app, IH by exact N. reflexivity.
Qed.

Lemma table_nodup (r : string) (items : list string) :
  NoDup items -> ~ In "_" items -> ~ In r items -> r <> "_" ->
  NoDup ((Some r :: map Some items) ++ [Some "_"])%list.
Proof.
  intros N U R Ne.
  assert (Inj : forall (x : string) (l : list string),
            In (Some x) (map Some l) -> In x l).
  { intros x l H. apply in_map_iff in H. destruct H as (y & E & Hy).
    injection E as ->. exact Hy. }
  apply NoDup_app.
  - constructor.
    + intro H. apply R, Inj, H.
    + clear - N. induction N as [| x l Hx N IH]; simpl; constructor; auto.
      intro H. apply Hx. apply in_map_iff in H. destruct H as (y & E & Hy).
      injection E as ->. exact Hy.
  - repeat constructor. simpl. tauto.
  - intros x Hx [<- | []]. destruct Hx as [E | Hx].
    + injection E as ->. now apply Ne.
    + apply U, Inj, Hx.
Qed.

(** The id of a relation: at most [len(deprel_list)] for the root
    relation and the listed ones, [len(deprel_list) + 1] for all
    others. *)
Lemma deprel_id_known (word_list tag_list deprel_list : list string)
    (deprel : option string) :
  NoDup deprel_list -> ~ In "_" deprel_list -> ~ In "ROOT" deprel_list ->
  let T := Transducer.__init__ word_list tag_list deprel_list in
  let deprel_id :=
    dict_get (Transducer.deprel2id T) deprel (Transducer.unk_deprel_id T) in
  if existsb (opt_string_eqb deprel)
       (Transducer.root_deprel :: map Some deprel_list)
  then 0 <= deprel_id <= len deprel_list
  else deprel_id = len deprel_list + 1.
Proof.
  intros N U R T deprel_id.
  pose proof (deprel_listed_id word_list tag_list deprel_list) as Listed.
  pose proof (deprel_root_id word_list tag_list deprel_list) as Root.
  pose proof (deprel_unk_id word_list tag_list deprel_list) as Unk.
  pose proof (deprel_id_range word_list tag_list deprel_list deprel) as Range.
  cbv zeta in Listed, Root, Range. fold T in Listed, Root, Unk, Range.
  fold deprel_id in Range.
  assert (Pos : 0 <= len deprel_list) by (unfold len; lia).
  destruct (existsb _ _) eqn:E.
  - apply existsb_exists in E. destruct E as (x & [<- | Hx] & E);
      apply opt_string_eqb_eq in E; subst deprel.
    + unfold deprel_id. change Transducer.root_deprel with (Some "ROOT").
      rewrite (Root R). lia.
    + apply in_map_iff in Hx. destruct Hx as (y & <- & Hy).
      apply In_nth_error in Hy. destruct Hy as [i Hi].
      unfold deprel_id. rewrite (Listed i y N U Hi).
      assert (i < List.length deprel_list)%nat
        by (apply nth_error_Some; congruence).
      unfold len. lia.
  - set (v := ((Transducer.root_deprel :: map Some deprel_list)
                 ++ [Transducer.unk_deprel])%list).
    assert (Ev : Transducer.deprel2id T = Transducer.index_of v) by reflexivity.
    destruct (in_dec opt_string_eq_dec deprel v) as [I | I].
    + destruct (index_of_found v deprel (Transducer.unk_deprel_id T) I)
        as [A B]. rewrite <- Ev in A, B. fold deprel_id in A, B.
      assert (Last : deprel = Transducer.unk_deprel).
      { unfold v in I. apply in_app_or in I. destruct I as [I | [I | []]].
        - exfalso. assert (C : existsb (opt_string_eqb deprel)
            (Transducer.root_deprel :: map Some deprel_list) = true).
          { apply existsb_exists. exists deprel. split; [exact I |].
            apply opt_string_eqb_refl. }
          congruence.
        - now symmetry. }
      subst deprel.
      destruct (Z_lt_le_dec deprel_id (len deprel_list + 1)) as [Lt | Ge];
        [| lia].
      exfalso. apply (B (len deprel_list + 1) Lt). apply table_last.
    + unfold deprel_id. rewrite Ev, index_of_missing by exact I. exact Unk.
Qed.

Lemma remove_one_hot (self : Transducer.t) (i : Z) (k : nat) :
  0 <= i ->
  Transducer.remove_deprels_td self
    (repeat 0 (Z.to_nat i) ++ 1 :: repeat 0 k)%list
  = Some (if i =? 0 then [1; 0; 0]
          else if i <? len (Transducer.deprel2id self) then [0; 1; 0]
          else [0; 0; 1]).
Proof.
  intro H. destruct (Z.eqb_spec i 0) as [-> | Ne]; [reflexivity |].
  unfold Transducer.remove_deprels_td.
  destruct (repeat 0 (Z.to_nat i) ++ 1 :: repeat 0 k)%list as [| x rest] eqn:E.
  - destruct (Z.to_nat i); discriminate.
  - assert (Ex : x = 0).
    { destruct (Z.to_nat i) as [| m] eqn:Em; [lia |].
      simpl in E. now injection E as <- _. }
    subst x. cbn [Z.eqb negb]. rewrite <- E.
    rewrite slice_sum_one_hot by lia. rewrite Z2Nat.id by exact H.
    destruct (i <? len (Transducer.deprel2id self)); reflexivity.
Qed.

(** What [remove_deprels] makes of the vector for a pair, given a
    relation list without repetitions, ["_"] and ["ROOT"]: the shift
    class for a shift; the left-arc class for a left-arc whose relation
    is ["ROOT"] or in the list; the right-arc class for every other
    pair, a left-arc with any other relation included. Read with
    [has_deprel=False], the classes give back [shift_id], [left_arc_id]
    and [right_arc_id]. *)
Theorem remove_deprels_classes (word_list tag_list deprel_list : list string)
    (transition_id : Z) (deprel : option string) :
  NoDup deprel_list -> ~ In "_" deprel_list -> ~ In "ROOT" deprel_list ->
  let T := Transducer.__init__ word_list tag_list deprel_list in
  let listed :=
    existsb (opt_string_eqb deprel)
      (Transducer.root_deprel :: map Some deprel_list) in
  exists td_vec,
    Transducer.td_vec_of T transition_id deprel = Some td_vec /\
    Transducer.remove_deprels_td T td_vec
    = Some (if transition_id =? shift_id then [1; 0; 0]
            else if (transition_id =? left_arc_id) && listed then [0; 1; 0]
            else [0; 0; 1]) /\
    Transducer.td_vec2trans_deprel T
      (if transition_id =? shift_id then [1; 0; 0]
       else if (transition_id =? left_arc_id) && listed then [0; 1; 0]
       else [0; 0; 1]) None None None false
    = Some (if transition_id =? shift_id then shift_id
            else if (transition_id =? left_arc_id) && listed then left_arc_id
            else right_arc_id, None).
Proof.
  intros N U R T listed.
  pose proof (deprel_id_known word_list tag_list deprel_list deprel N U R) as K.
  cbv zeta in K. fold T listed in K.
  set (deprel_id := dict_get (Transducer.deprel2id T) deprel
                      (Transducer.unk_deprel_id T)) in *.
  pose proof (deprel_id_range word_list tag_list deprel_list deprel) as Range.
  cbv zeta in Range. fold T in Range. fold deprel_id in Range.
  assert (Nid : len (Transducer.id2deprel T) = len deprel_list + 2)
    by (unfold T, Transducer.__init__; cbn [Transducer.id2deprel]; apply table_len).
  assert (Ndict : len (Transducer.deprel2id T) = len deprel_list + 2).
  { rewrite <- Nid. unfold len. rewrite <- (length_map fst).
    unfold T, Transducer.__init__.
    cbn [Transducer.deprel2id Transducer.id2deprel].
    rewrite index_of_keys; [reflexivity |].
    apply table_nodup; auto. discriminate. }
  assert (Pos : 0 <= len deprel_list) by (unfold len; lia).
  unfold Transducer.td_vec_of. fold deprel_id. rewrite Nid.
  destruct (transition_id =? shift_id).
  - rewrite one_hot by lia. eexists. split; [reflexivity |].
    split; [| reflexivity]. now rewrite remove_one_hot by lia.
  - destruct (transition_id =? left_arc_id); cbn [andb].
    + rewrite one_hot by lia. eexists. split; [reflexivity |].
      split; [| destruct listed; reflexivity].
      rewrite remove_one_hot by lia. rewrite Ndict.
      assert (E0 : (1 + deprel_id =? 0) = false) by (apply Z.eqb_neq; lia).
      rewrite E0. destruct listed.
      * assert (E1 : (1 + deprel_id <? len deprel_list + 2) = true)
          by (apply Z.ltb_lt; lia).
        now rewrite E1.
      * assert (E1 : (1 + deprel_id <? len deprel_list + 2) = false)
          by (apply Z.ltb_ge; lia).
        now rewrite E1.
    + rewrite one_hot by lia. eexists. split; [reflexivity |].
      split; [| reflexivity].
      rewrite remove_one_hot by lia. rewrite Ndict.
      assert (E0 : (1 + (len deprel_list + 2) + deprel_id =? 0) = false)
        by (apply Z.eqb_neq; lia).
      assert (E1 : (1 + (len deprel_list + 2) + deprel_id
                    <? len deprel_list + 2) = false)
        by (apply Z.ltb_ge; lia).
      now rewrite E0, E1.
Qed.

(** [remove_deprels_classes] for the transducer of the unlabelled
    task, whose relation list is empty: the left-arc with relation
    ["det"] ends in the right-arc class. *)
Lemma remove_deprels_unlabelled_det :
  let T := Transducer.__init__ ["the"] ["DT"] [] in
  exists td_vec,
    Transducer.td_vec_of T left_arc_id (Some "det") = Some td_vec /\
    Transducer.remove_deprels_td T td_vec = Some [0; 0; 1] /\
    Transducer.td_vec2trans_deprel T [0; 0; 1] None None None false
    = Some (right_arc_id, None).
Proof.
  assert (N : NoDup (@nil string)) by constructor.
  assert (U : ~ In "_" (@nil string)) by (simpl; tauto).
  assert (R : ~ In "ROOT" (@nil string)) by (simpl; tauto).
  exact (remove_deprels_classes ["the"] ["DT"] [] left_arc_id (Some "det") N U R).
Defined.

(** * [get_sentence]: iteration order and the root flag *)

Lemma kept_nodes_perm (keep : node -> bool) (nds nds' : list node) :
  Permutation nds nds' -> Permutation (filter keep nds) (filter keep nds').
Proof.
  induction 1 as [| nd l l' _ IH | a b l | l l' l'' _ IH1 _ IH2]; simpl.
  - constructor.
  - destruct (keep nd); [now apply perm_skip | exact IH].
  - destruct (keep a), (keep b);
      [apply perm_swap | apply Permutation_refl ..].
  - eapply perm_trans; eassumption.
Qed.

Lemma kept_nodes_sorted (keep : node -> bool) (nds : list node) :
  StronglySorted addr_lt nds -> StronglySorted addr_lt (filter keep nds).
Proof.
  induction 1 as [| nd l _ IH F]; simpl; [constructor |].
  destruct (keep nd); [| exact IH].
  constructor; [exact IH |].
  rewrite Forall_forall in *. intros x Hx.
  apply filter_In in Hx. now apply F.
Qed.

Lemma tokens_with_word (nds : list node) :
  map token_of (filter has_word nds)
  = filter (fun t : token => match fst t with Some _ => true | None => false end)
      (map token_of nds).
Proof.
  induction nds as [| nd l IH]; simpl; [reflexivity |].
  unfold has_word at 1. destruct (word nd); simpl; now rewrite IH.
Qed.

(** With distinct addresses, the sentence [get_sentence] returns does
    not depend on the order in which [graph.nodes] holds the nodes: two
    graphs with the same nodes give the same tuple, and the sort raises
    nothing. *)
Theorem get_sentence_any_order (g1 g2 : DependencyGraph) (include_root : bool) :
  NoDup (map address (nodes g1)) ->
  Permutation (nodes g1) (nodes g2) ->
  exists s,
    get_sentence g1 include_root = Ok s /\ get_sentence g2 include_root = Ok s.
Proof.
  intros N P.
  assert (N2 : NoDup (map address (nodes g2))).
  { eapply Permutation_NoDup; [| exact N]. now apply Permutation_map. }
  destruct (get_sentence_sorted g1 include_root N) as (ns1 & P1 & S1 & E1).
  destruct (get_sentence_sorted g2 include_root N2) as (ns2 & P2 & S2 & E2).
  exists (map token_of ns1). split; [exact E1 |].
  rewrite E2. do 2 f_equal. symmetry.
  apply (sorted_perm_unique node address); auto.
  apply perm_trans with
    (filter (fun nd => include_root || has_word nd) (nodes g2)); [| exact P2].
  apply perm_trans with
    (filter (fun nd => include_root || has_word nd) (nodes g1)).
  - now apply Permutation_sym.
  - now apply kept_nodes_perm.
Qed.

(** [get_sentence_any_order] at the "book a flight" graph and the graph
    holding its nodes in reverse. *)
Lemma get_sentence_any_order_book :
  get_sentence book_graph false = Ok book_sentence /\
  get_sentence (mkGraph (rev (nodes book_graph))) false = Ok book_sentence.
Proof.
  assert (N : NoDup (map address (nodes book_graph))).
  { simpl. repeat constructor; simpl; intuition lia. }
  destruct (get_sentence_any_order book_graph
              (mkGraph (rev (nodes book_graph))) false N
              (Permutation_rev (nodes book_graph))) as (s & E1 & E2).
  assert (Es : s = book_sentence).
  { vm_compute in E1. injection E1 as E1. symmetry. exact E1. }
  rewrite <- Es. split; assumption.
Defined.

(** With distinct addresses, the sentence without the root is the
    sentence with the root from which the pairs whose word is [None] are
    dropped: [include_root] changes neither the other pairs nor their
    order. *)
Theorem get_sentence_root_flag (g : DependencyGraph) :
  NoDup (map address (nodes g)) ->
  exists s,
    get_sentence g true = Ok s /\
    get_sentence g false
    = Ok (filter
            (fun t : token => match fst t with Some _ => true | None => false end)
            s).
Proof.
  intro N.
  destruct (get_sentence_sorted g true N) as (nst & Pt & St & Et).
  destruct (get_sentence_sorted g false N) as (nsf & Pf & Sf & Ef).
  exists (map token_of nst). split; [exact Et |].
  rewrite Ef, <- tokens_with_word. do 2 f_equal.
  apply (sorted_perm_unique node address); auto.
  - now apply kept_nodes_sorted.
  - apply perm_trans with (filter has_word (nodes g)).
    + apply Permutation_sym. exact Pf.
    + apply perm_trans with
        (filter has_word (filter (fun nd => true || has_word nd) (nodes g))).
      * assert (All : filter (fun nd => true || has_word nd) (nodes g) = nodes g).
        { generalize (nodes g) as l. induction l as [| nd l IH]; simpl;
            [reflexivity | f_equal; exact IH]. }
        rewrite All. apply Permutation_refl.
      * now apply kept_nodes_perm.
Qed.

(** [get_sentence_root_flag] at the "book a flight" graph. *)
Lemma get_sentence_root_flag_book :
  get_sentence book_graph true = Ok ((None, "TOP") :: book_sentence) /\
  get_sentence book_graph false = Ok book_sentence.
Proof.
  assert (N : NoDup (map address (nodes book_graph))).
  { simpl. repeat constructor; simpl; intuition lia. }
  destruct (get_sentence_root_flag book_graph N) as (s & Et & Ef).
  assert (Es : s = (None, "TOP") :: book_sentence).
  { vm_compute in Et. injection Et as Et. symmetry. exact Et. }
  subst s. split; [exact Et | exact Ef].
Defined.

(** * Scoring *)

Lemma ex_get_set (ex : ex_dict) (k k' : Z) (v : Z * option string) :
  ex_get (ex_set ex k v) k' = if k =? k' then Some v else ex_get ex k'.
Proof.
  induction ex as [| [k0 v0] ex IH]; simpl.
  - reflexivity.
  - destruct (Z.eqb_spec k0 k) as [-> | Ne]; simpl.
    + destruct (k =? k'); reflexivity.
    + rewrite IH. destruct (Z.eqb_spec k0 k') as [-> | Ne'].
      * destruct (Z.eqb_spec k k'); [congruence | reflexivity].
      * reflexivity.
Qed.

Lemma ex_fold_other (expected : list arc) (ex0 : ex_dict) (d : Z) :
  ~ In d (map dependant expected) ->
  ex_get (fold_left ex_add expected ex0) d = ex_get ex0 d.
Proof.
  revert ex0. induction expected as [| [[h d'] lab] l IH]; intros ex0 H; simpl.
  - reflexivity.
  - rewrite IH by (intro C; apply H; now right).
    rewrite ex_get_set. destruct (Z.eqb_spec d' d) as [-> | _]; [| reflexivity].
    exfalso. apply H. now left.
Qed.

Lemma ex_of_key (expected : list arc) (d : Z) :
  ex_get (ex_of expected) d <> None -> In d (map dependant expected).
Proof.
  intro H. destruct (in_dec Z.eq_dec d (map dependant expected)) as [I | I];
    [exact I | exfalso].
  apply H. unfold ex_of. exact (ex_fold_other expected [] d I).
Qed.

Lemma ex_fold_listed (expected : list arc) (ex0 : ex_dict) (h d : Z)
    (lab : option string) :
  NoDup (map dependant expected) -> In (h, d, lab) expected ->
  ex_get (fold_left ex_add expected ex0) d = Some (h, lab).
Proof.
  revert ex0. induction expected as [| a l IH]; intros ex0 N I; simpl.
  - contradiction.
  - simpl in N. apply NoDup_cons_iff in N. destruct N as [Fresh N].
    destruct I as [-> | I].
    + rewrite ex_fold_other by exact Fresh. simpl.
      rewrite ex_get_set, Z.eqb_refl. reflexivity.
    + now apply IH.
Qed.

Lemma hit_implies (ex : ex_dict) (a : arc) :
  labelled_hit ex a = true -> unlabelled_hit ex a = true.
Proof.
  destruct a as [[h d] lab]. unfold labelled_hit, unlabelled_hit.
  destruct (ex_get ex d) as [[h' lab'] |]; [| discriminate].
  intro H. now apply andb_prop in H.
Qed.

(** What the inner loop adds to the counters. *)
Lemma inner_loop (las : bool) (ex : ex_dict) (actual : list arc) (c : counters) :
  fold_left
    (fun c a =>
       mkCounters
         (if las then accum_l c + b2z (labelled_hit ex a) else accum_l c)
         (accum c + b2z (unlabelled_hit ex a))
         (tokens c))
    actual c
  = mkCounters
      (if las then accum_l c + len (filter (labelled_hit ex) actual)
       else accum_l c)
      (accum c + len (filter (unlabelled_hit ex) actual))
      (tokens c).
Proof.
  revert c. induction actual as [| a l IH]; intro c; simpl.
  - unfold len. simpl. destruct c, las; simpl; f_equal; lia.
  - rewrite IH. simpl. unfold len.
    destruct (labelled_hit ex a), (unlabelled_hit ex a), las; simpl b2z;
      simpl List.length; f_equal; lia.
Qed.

Lemma score_sentence_eq (las : bool) (c : counters) (actual expected : list arc) :
  score_sentence las c (actual, expected)
  = mkCounters
      (if las
       then accum_l c + len (filter (labelled_hit (ex_of expected)) actual)
       else accum_l c)
      (accum c + len (filter (unlabelled_hit (ex_of expected)) actual))
      (tokens c + len expected).
Proof.
  unfold score_sentence. rewrite inner_loop. reflexivity.
Qed.

Lemma labelled_le_unlabelled (ex : ex_dict) (actual : list arc) :
  len (filter (labelled_hit ex) actual) <= len (filter (unlabelled_hit ex) actual).
Proof.
  unfold len. induction actual as [| a l IH]; simpl; [lia |].
  destruct (labelled_hit ex a) eqn:L.
  - rewrite (hit_implies ex a L). simpl List.length. lia.
  - destruct (unlabelled_hit ex a); simpl List.length; lia.
Qed.

Lemma hits_at_most_expected (expected actual : list arc) :
  NoDup (map dependant actual) ->
  len (filter (unlabelled_hit (ex_of expected)) actual) <= len expected.
Proof.
  intro N. unfold len. apply inj_le.
  rewrite <- (length_map dependant (filter _ actual)).
  rewrite <- (length_map dependant expected).
  apply NoDup_incl_length.
  - clear - N. induction actual as [| a l IH]; simpl in *; [constructor |].
    apply NoDup_cons_iff in N. destruct N as [Fresh N].
    destruct (unlabelled_hit (ex_of expected) a); simpl; [| now apply IH].
    apply NoDup_cons_iff. split; [| now apply IH].
    intro C. apply Fresh. apply in_map_iff in C.
    destruct C as (x & E & Hx). apply filter_In in Hx.
    rewrite <- E. apply in_map. tauto.
  - intros d Hd. apply in_map_iff in Hd. destruct Hd as ([[h d'] lab] & <- & Ha).
    apply filter_In in Ha. destruct Ha as [_ Hit].
    apply ex_of_key. unfold unlabelled_hit in Hit. unfold dependant. simpl.
    destruct (ex_get (ex_of expected) d'); [discriminate | discriminate].
Qed.

Lemma all_hit (sent : list arc) :
  NoDup (map dependant sent) ->
  filter (labelled_hit (ex_of sent)) sent = sent /\
  filter (unlabelled_hit (ex_of sent)) sent = sent.
Proof.
  intro N.
  assert (L : forall a, In a sent -> labelled_hit (ex_of sent) a = true).
  { intros [[h d] lab] I. unfold labelled_hit, ex_of.
    rewrite (ex_fold_listed sent [] h d lab N I).
    rewrite Z.eqb_refl. apply opt_string_eqb_refl. }
  assert (Keep : forall (p : arc -> bool) (l : list arc),
            (forall a, In a l -> p a = true) -> filter p l = l).
  { intros p l. induction l as [| a l IH]; intro H; simpl; [reflexivity |].
    rewrite (H a) by now left. f_equal. apply IH. intros x Hx. apply H.
    now right. }
  split; apply Keep; [exact L |].
  intros a I. apply hit_implies. now apply L.
Qed.

(** The outer loop from any counters. *)
Lemma outer_loop_bounds (las : bool) (pairs : list (list arc * list arc))
    (c : counters) :
  0 <= accum_l c <= accum c -> 0 <= tokens c ->
  let c' := fold_left (score_sentence las) pairs c in
  0 <= accum_l c' <= accum c' /\ 0 <= tokens c' /\
  (accum c <= tokens c ->
   Forall (fun pr => NoDup (map dependant (fst pr))) pairs ->
   accum c' <= tokens c').
Proof.
  revert c. induction pairs as [| [actual expected] l IH]; intros c H T;
    cbv zeta; cbn [fold_left].
  - split; [exact H |]. split; [exact T |]. intros Le _. exact Le.
  - rewrite score_sentence_eq.
    set (c1 := mkCounters _ _ _).
    pose proof (labelled_le_unlabelled (ex_of expected) actual) as LU.
    assert (P1 : 0 <= len (filter (labelled_hit (ex_of expected)) actual))
      by (unfold len; lia).
    assert (P2 : 0 <= len expected) by (unfold len; lia).
    assert (H1 : 0 <= accum_l c1 <= accum c1).
    { unfold c1. simpl. destruct las; lia. }
    assert (T1 : 0 <= tokens c1) by (unfold c1; simpl; lia).
    destruct (IH c1 H1 T1) as (A & B & C).
    split; [exact A |]. split; [exact B |].
    intros Le F. inversion F as [| ? ? N F']; subst. simpl in N.
    apply C; [| exact F'].
    unfold c1. simpl.
    pose proof (hits_at_most_expected expected actual N). lia.
Qed.

Lemma outer_loop_flag (pairs : list (list arc * list arc)) (c c' : counters) :
  accum c = accum c' -> tokens c = tokens c' ->
  accum (fold_left (score_sentence true) pairs c)
  = accum (fold_left (score_sentence false) pairs c') /\
  tokens (fold_left (score_sentence true) pairs c)
  = tokens (fold_left (score_sentence false) pairs c').
Proof.
  revert c c'. induction pairs as [| [actual expected] l IH]; intros c c' A T;
    cbn [fold_left].
  - now split.
  - apply IH; rewrite !score_sentence_eq; simpl; congruence.
Qed.

Lemma zipped_actuals (actuals expecteds : list (list arc)) :
  Forall (fun actual => NoDup (map dependant actual)) actuals ->
  Forall (fun pr : list arc * list arc => NoDup (map dependant (fst pr)))
    (combine actuals expecteds).
Proof.
  intro F. revert expecteds. induction F as [| a l N _ IH]; intro expecteds.
  - constructor.
  - destruct expecteds as [| e es]; simpl; constructor; auto.
Qed.

Lemma denominator (n : Z) : 0 <= n -> Z.pos (Z.to_pos (Z.max n 1)) = Z.max n 1.
Proof.
  intro H. apply Z2Pos.id. lia.
Qed.

(** The labelled score is at most the unlabelled score and neither is
    negative, whatever the two arguments hold; the unlabelled score is
    the same number with [las=False], where the first component is
    [None]. *)
Theorem score_arcs_las_below_uas (actuals expecteds : list (list arc)) :
  exists l u,
    score_arcs actuals expecteds true = (Some l, u) /\
    score_arcs actuals expecteds false = (None, u) /\
    (0 <= l)%Q /\ (l <= u)%Q.
Proof.
  unfold score_arcs, score_counters.
  set (pairs := combine actuals expecteds).
  set (z := mkCounters 0 0 0).
  assert (H0 : 0 <= accum_l z <= accum z) by (simpl; lia).
  assert (T0 : 0 <= tokens z) by (simpl; lia).
  destruct (outer_loop_bounds true pairs z H0 T0) as (A & B & _).
  destruct (outer_loop_flag pairs z z eq_refl eq_refl) as [Ea Et].
  set (c := fold_left (score_sentence true) pairs z) in *.
  do 2 eexists. split; [reflexivity |]. split.
  - rewrite <- Ea, <- Et. reflexivity.
  - unfold Qle. cbn [Qnum Qden]. split; nia.
Qed.

(** When no sentence of [actuals] names a dependant twice, the
    unlabelled score, and with it the labelled score, is at most 1. *)
Theorem score_arcs_at_most_one (actuals expecteds : list (list arc)) (las : bool) :
  Forall (fun actual => NoDup (map dependant actual)) actuals ->
  (snd (score_arcs actuals expecteds las) <= 1)%Q.
Proof.
  intro F. unfold score_arcs, score_counters.
  set (pairs := combine actuals expecteds).
  set (z := mkCounters 0 0 0).
  assert (H0 : 0 <= accum_l z <= accum z) by (simpl; lia).
  assert (T0 : 0 <= tokens z) by (simpl; lia).
  destruct (outer_loop_bounds las pairs z H0 T0) as (A & B & C).
  assert (Le : accum z <= tokens z) by (simpl; lia).
  specialize (C Le (zipped_actuals actuals expecteds F)).
  set (c := fold_left (score_sentence las) pairs z) in *.
  cbn [snd]. unfold Qle. cbn [Qnum Qden]. rewrite denominator by exact B. lia.
Qed.

(** [score_arcs_at_most_one] for a parse of "book a flight" that gets
    one head of three right. *)
Lemma score_arcs_at_most_one_book :
  Qle
    (snd (score_arcs
            [[(0, 1, Some "root"); (1, 2, Some "det"); (2, 3, Some "obj")]]
            [[(0, 1, Some "root"); (3, 2, Some "det"); (1, 3, Some "obj")]]
            true))
    1%Q.
Proof.
  apply score_arcs_at_most_one.
  constructor; [| constructor].
  cbv [map dependant fst snd]. repeat constructor; simpl; intuition lia.
Defined.

Lemma same_sentences (sents : list (list arc)) (c : counters) :
  Forall (fun sent => NoDup (map dependant sent)) sents ->
  fold_left (score_sentence true) (combine sents sents) c
  = mkCounters (accum_l c + len (List.concat sents))
      (accum c + len (List.concat sents))
      (tokens c + len (List.concat sents)).
Proof.
  intro F. revert c. induction F as [| sent l N _ IH]; intro c;
    cbn [combine fold_left List.concat].
  - unfold len. simpl. destruct c. simpl. f_equal; lia.
  - rewrite IH, score_sentence_eq. cbn [accum_l accum tokens].
    destruct (all_hit sent N) as [-> ->].
    unfold len. rewrite length_app. f_equal; lia.
Qed.

(** Arcs scored against themselves: when no sentence names a dependant
    twice and there is at least one arc, both scores are 1. *)
Theorem score_arcs_of_gold (sents : list (list arc)) :
  Forall (fun sent => NoDup (map dependant sent)) sents ->
  List.concat sents <> [] ->
  exists l u,
    score_arcs sents sents true = (Some l, u) /\ (l == 1)%Q /\ (u == 1)%Q.
Proof.
  intros F NE. unfold score_arcs, score_counters.
  rewrite (same_sentences sents _ F). cbn [accum_l accum tokens].
  set (n := len (List.concat sents)).
  assert (Pos : 0 < n).
  { unfold n, len. destruct (List.concat sents); [contradiction |].
    simpl List.length. lia. }
  do 2 eexists. split; [reflexivity |].
  unfold Qeq. cbn [Qnum Qden]. rewrite denominator by lia. lia.
Qed.

(** [score_arcs_of_gold] at the arcs of "book a flight". *)
Lemma score_arcs_of_gold_book :
  exists l u,
    score_arcs [[(0, 1, Some "root"); (3, 2, Some "det"); (1, 3, Some "obj")]]
      [[(0, 1, Some "root"); (3, 2, Some "det"); (1, 3, Some "obj")]] true
    = (Some l, u) /\ (l == 1)%Q /\ (u == 1)%Q.
Proof.
  apply score_arcs_of_gold.
  - constructor; [| constructor].
    cbv [map dependant fst snd]. repeat constructor; simpl; intuition lia.
  - discriminate.
Defined.

(** The scores are not bounded by 1: an actual sentence that holds an
    arc of the expected sentence [k] times scores [k] against that one
    arc. *)
Theorem score_arcs_counts_repeats (a : arc) (k : nat) :
  score_arcs [repeat a k] [[a]] true
  = (Some (Qmake (Z.of_nat k) 1), Qmake (Z.of_nat k) 1).
Proof.
  unfold score_arcs, score_counters. cbn [combine fold_left].
  rewrite score_sentence_eq. cbn [accum_l accum tokens].
  assert (N : NoDup (map dependant [a])).
  { simpl. constructor; [simpl; tauto | constructor]. }
  destruct (all_hit [a] N) as [L U].
  assert (Hl : labelled_hit (ex_of [a]) a = true).
  { simpl in L. destruct (labelled_hit (ex_of [a]) a); [reflexivity | discriminate]. }
  assert (Hu : unlabelled_hit (ex_of [a]) a = true) by now apply hit_implies.
  assert (Keep : forall p : arc -> bool, p a = true ->
            len (filter p (repeat a k)) = Z.of_nat k).
  { intros p Hp. unfold len. f_equal.
    induction k as [| k IH]; simpl; [reflexivity |].
    rewrite Hp. simpl. now rewrite IH. }
  rewrite (Keep _ Hl), (Keep _ Hu). reflexivity.
Qed.

Lemma combine_longer (actuals expecteds more : list (list arc)) :
  (List.length actuals <= List.length expecteds)%nat ->
  combine actuals (expecteds ++ more)%list = combine actuals expecteds.
Proof.
  revert expecteds. induction actuals as [| a l IH]; intros expecteds H.
  - reflexivity.
  - destruct expecteds as [| e es]; simpl in H; [lia |].
    simpl. f_equal. apply IH. lia.
Qed.

(** Expected sentences past the end of [actuals] are not scored: their
    arcs are counted neither as tokens nor as errors. *)
Theorem score_arcs_ignores_unparsed (actuals expecteds more : list (list arc))
    (las : bool) :
  (List.length actuals <= List.length expecteds)%nat ->
  score_arcs actuals (expecteds ++ more)%list las
  = score_arcs actuals expecteds las.
Proof.
  intro H. unfold score_arcs, score_counters.
  now rewrite combine_longer.
Qed.

(** [score_arcs_ignores_unparsed] for one parsed sentence out of two. *)
Lemma score_arcs_ignores_unparsed_example :
  score_arcs [[(0, 1, Some "root")]]
    ([[(0, 1, Some "root")]] ++ [[(0, 1, Some "root"); (1, 2, Some "obj")]])%list
    true
  = score_arcs [[(0, 1, Some "root")]] [[(0, 1, Some "root")]] true.
Proof.
  apply score_arcs_ignores_unparsed. simpl. lia.
Defined.

(** * Expected arcs *)

Lemma node_at_found (g : DependencyGraph) (nd : node) :
  NoDup (map address (nodes g)) -> In nd (nodes g) ->
  node_at (address nd) g = Some nd.
Proof.
  unfold node_at. generalize (nodes g) as l.
  induction l as [| x l IH]; simpl; intros N I; [contradiction |].
  apply NoDup_cons_iff in N. destruct N as [Fresh N].
  destruct I as [-> | I].
  - now rewrite Z.eqb_refl.
  - destruct (Z.eqb_spec (address x) (address nd)) as [E | _]; [| now apply IH].
    exfalso. apply Fresh. rewrite E. now apply in_map.
Qed.

Lemma in_range (a b x : Z) : In x (range a b) <-> a <= x < b.
Proof.
  unfold range. rewrite in_map_iff. split.
  - intros (k & <- & Hk). apply in_seq in Hk. lia.
  - intro H. exists (Z.to_nat (x - a)). split; [lia |].
    apply in_seq. lia.
Qed.

Lemma addresses_distinct (g : DependencyGraph) :
  Permutation (map address (nodes g))
    (map Z.of_nat (seq 0 (List.length (nodes g)))) ->
  NoDup (map address (nodes g)).
Proof.
  intro P. eapply Permutation_NoDup; [apply Permutation_sym; exact P |].
  apply Finite.Injective_map_NoDup; [| apply seq_NoDup].
  intros x y. apply Nat2Z.inj.
Qed.

Lemma address_in_graph (g : DependencyGraph) (a : Z) :
  Permutation (map address (nodes g))
    (map Z.of_nat (seq 0 (List.length (nodes g)))) ->
  In a (map address (nodes g)) <-> 0 <= a < len (nodes g).
Proof.
  intro P. unfold len. split.
  - intro I. apply (Permutation_in _ P), in_map_iff in I.
    destruct I as (k & <- & Hk). apply in_seq in Hk. lia.
  - intro H. apply (Permutation_in _ (Permutation_sym P)), in_map_iff.
    exists (Z.to_nat a). split; [lia |]. apply in_seq. lia.
Qed.

(** When the addresses of a graph are 0, ..., n in some order,
    [graph2arc] yields one triple for each node but the one at address
    0, in ascending address, and nothing else: the triple holds the
    node's head, its address and the id of its relation, which is an
    index of [id2deprel]. *)
Theorem graph2arc_covers_nodes (word_list tag_list deprel_list : list string)
    (g : DependencyGraph) :
  Permutation (map address (nodes g))
    (map Z.of_nat (seq 0 (List.length (nodes g)))) ->
  let T := Transducer.__init__ word_list tag_list deprel_list in
  let arc_of nd :=
    Labelled (head nd) (address nd)
      (dict_get (Transducer.deprel2id T) (rel nd) (Transducer.unk_deprel_id T)) in
  exists ns,
    graph2arc T g true = map arc_of ns /\
    map address ns = range 1 (len (nodes g)) /\
    (forall nd, In nd ns <-> In nd (nodes g) /\ address nd <> 0) /\
    (forall nd, In nd ns ->
       exists label,
         tuple_at (Transducer.id2deprel T)
           (dict_get (Transducer.deprel2id T) (rel nd)
              (Transducer.unk_deprel_id T))
         = Some label).
Proof.
  intros P T arc_of.
  pose proof (addresses_distinct g P) as N.
  assert (Each : forall a, In a (range 1 (len (nodes g))) ->
            exists nd, node_at a g = Some nd /\ In nd (nodes g) /\ address nd = a).
  { intros a Ha. apply in_range in Ha.
    assert (I : In a (map address (nodes g)))
      by (apply (address_in_graph g a P); lia).
    apply in_map_iff in I. destruct I as (nd & <- & Hnd).
    exists nd. split; [now apply node_at_found | now split]. }
  assert (Pick : forall l, (forall a, In a l ->
              exists nd, node_at a g = Some nd /\ In nd (nodes g) /\ address nd = a) ->
            exists ns, map (fun a => node_at a g) l = map Some ns /\
                       map address ns = l /\
                       forall nd, In nd ns -> In nd (nodes g)).
  { induction l as [| a l IH]; intro H.
    - exists []. repeat split. intros nd [].
    - destruct (H a (or_introl eq_refl)) as (nd & E & I & A).
      destruct IH as (ns & E1 & E2 & E3);
        [intros b Hb; apply H; now right |].
      exists (nd :: ns). simpl. rewrite E, E1, E2, A. repeat split.
      intros x [<- | Hx]; auto. }
  destruct (Pick _ Each) as (ns & E1 & E2 & E3).
  exists ns. split; [| split; [exact E2 | split]].
  - unfold graph2arc, get_head, get_dep_rel.
    rewrite <- E2 at 1. rewrite map_map.
    clear - E1 E2. revert E1 E2. generalize (range 1 (len (nodes g))) as l.
    induction ns as [| nd ns IH]; intros l E1 E2;
      destruct l as [| a l]; try discriminate; [reflexivity |].
    simpl in *. injection E1 as Ea E1. injection E2 as Eb E2.
    subst a. rewrite Ea. f_equal. unfold arc_of. now apply (IH l).
  - intro nd. split.
    + intro I. split; [now apply E3 |].
      assert (Ia : In (address nd) (range 1 (len (nodes g))))
        by (rewrite <- E2; now apply in_map).
      apply in_range in Ia. lia.
    + intros [I Ne].
      assert (Ia : In (address nd) (range 1 (len (nodes g)))).
      { apply in_range.
        assert (R : 0 <= address nd < len (nodes g))
          by (apply (address_in_graph g _ P); now apply in_map).
        lia. }
      rewrite <- E2 in Ia. apply in_map_iff in Ia.
      destruct Ia as (nd' & Ea & I').
      assert (nd' = nd); [| now subst].
      pose proof (node_at_found g nd' N (E3 _ I')) as F'.
      pose proof (node_at_found g nd N I) as F.
      rewrite Ea in F'. congruence.
  - intros nd _. eexists.
    exact (deprel_id_back word_list tag_list deprel_list (rel nd)).
Qed.

(** [graph2arc_covers_nodes] at the "book a flight" graph, with the
    relations ["det"] and ["obj"] listed and ["root"] not. *)
Lemma graph2arc_book :
  let T := Transducer.__init__ [] [] ["det"; "obj"] in
  exists ns,
    graph2arc T book_graph true
    = map
        (fun nd =>
           Labelled (head nd) (address nd)
             (dict_get (Transducer.deprel2id T) (rel nd)
                (Transducer.unk_deprel_id T)))
        ns /\
    map address ns = [1; 2; 3].
Proof.
  destruct (graph2arc_covers_nodes [] [] ["det"; "obj"] book_graph
              (Permutation_refl _)) as (ns & E & A & _).
  exists ns. split; [exact E | exact A].
Defined.
